(** * Instagram saver bot: the URL resolver, the admin registry, the user
      activity log and the media relay of [main.py], with their properties. *)

From Stdlib Require Import String Ascii List ZArith Lia Bool DecimalString.
From Stdlib Require DecimalZ.
From stdpp Require Import base gmap strings.
Import ListNotations.

Local Open Scope string_scope.
Local Open Scope list_scope.

Definition chars (s : string) : list ascii := list_ascii_of_string s.

(** ** Python's [re], as far as the two patterns of [main.py] use it

    Strings are sequences of bytes; on ASCII text a byte is a character. The
    matcher is a backtracking one: for a pattern and a subject it lists every
    way the pattern can match a prefix of the subject, in the order in which
    Python's engine tries them (greedy quantifiers take the longest first,
    alternation goes left to right), so that the head of the list is the match
    that [re] reports. *)

Module Re.

(** One-character patterns. *)
Inductive atom :=
| Chr (c : ascii)               (* a literal character, also an escaped one *)
| Dot                           (* [.]: any character but the newline *)
| NoneOf (cs : list ascii).     (* [[^...]] *)

Inductive regex :=
| Eps
| Atom (a : atom)
| Seq (r1 r2 : regex)
| Alt (r1 r2 : regex)           (* [r1|r2] *)
| Opt (r : regex)               (* [r?], greedy *)
| Plus (a : atom)               (* [a+], greedy, on a one-character pattern *)
| Group (n : nat) (r : regex).  (* the capturing group number [n] *)

(** The text captured so far, per group number. *)
Definition captures := list (nat * list ascii).

Definition group (n : nat) (c : captures) : option (list ascii) :=
  snd <$> List.find (fun p => Nat.eqb (fst p) n) c.

Definition atom_ok (a : atom) (c : ascii) : bool :=
  match a with
  | Chr d => Ascii.eqb c d
  | Dot => negb (Ascii.eqb c "010")
  | NoneOf cs => negb (existsb (Ascii.eqb c) cs)
  end.

(** The rests of [s] after one or more characters of [a], longest run first. *)
Fixpoint plus_rests (a : atom) (s : list ascii) : list (list ascii) :=
  match s with
  | [] => []
  | c :: s' => if atom_ok a c then plus_rests a s' ++ [s'] else []
  end.

(** What [s] lost to become its suffix [rest]. *)
Definition consumed (s rest : list ascii) : list ascii :=
  firstn (length s - length rest) s.

Fixpoint rmatch (r : regex) (s : list ascii) (caps : captures)
  : list (list ascii * captures) :=
  match r with
  | Eps => [(s, caps)]
  | Atom a =>
      match s with
      | c :: s' => if atom_ok a c then [(s', caps)] else []
      | [] => []
      end
  | Seq r1 r2 =>
      flat_map (fun m => rmatch r2 (fst m) (snd m)) (rmatch r1 s caps)
  | Alt r1 r2 => rmatch r1 s caps ++ rmatch r2 s caps
  | Opt r1 => rmatch r1 s caps ++ [(s, caps)]
  | Plus a => List.map (fun rest => (rest, caps)) (plus_rests a s)
  | Group n r1 =>
      List.map (fun m => (fst m, (n, consumed s (fst m)) :: snd m))
               (rmatch r1 s caps)
  end.

(** [re.match]: the pattern at the start of the subject. *)
Definition re_match (r : regex) (s : list ascii) : option captures :=
  snd <$> head (rmatch r s []).

(** [re.search]: the pattern at the leftmost position where it matches. *)
Fixpoint re_search (r : regex) (s : list ascii) : option captures :=
  match rmatch r s [] with
  | m :: _ => Some (snd m)
  | [] =>
      match s with
      | [] => None
      | _ :: s' => re_search r s'
      end
  end.

(** *** Reading a pattern

    The syntax that the two patterns use: literal characters, a backslash
    before a character that is no letter and no digit (the character
    itself), [.], [[^...]] with plain characters inside, [(...)],
    [(?:...)], [|], and the postfix [?] and [+]. Anything else is refused. *)

Definition is_one_of (cs : string) (c : ascii) : bool :=
  existsb (Ascii.eqb c) (chars cs).

Definition is_alnum (c : ascii) : bool :=
  let n := nat_of_ascii c in
  (Nat.leb 48 n && Nat.leb n 57) || (Nat.leb 65 n && Nat.leb n 90)
  || (Nat.leb 97 n && Nat.leb n 122).

(** What a postfix operator applies to. *)
Inductive item :=
| One (a : atom)
| Sub (r : regex).

Definition regex_of (i : item) : regex :=
  match i with
  | One a => Atom a
  | Sub r => r
  end.

(** The characters of a [[^...]] class, up to the closing bracket. *)
Fixpoint read_class (acc s : list ascii) : option (list ascii * list ascii) :=
  match s with
  | [] => None
  | c :: s' =>
      if Ascii.eqb c "]"
      then match acc with [] => None | _ => Some (rev acc, s') end
      else if is_one_of "\-[" c then None
      else read_class (c :: acc) s'
  end.

(** The postfix operator after an item, when there is one. *)
Definition postfix (i : item) (n : nat) (s : list ascii)
  : option (regex * nat * list ascii) :=
  match s with
  | c :: s' =>
      if Ascii.eqb c "?" then Some (Opt (regex_of i), n, s')
      else if Ascii.eqb c "+" then
        match i with
        | One a => Some (Plus a, n, s')
        | Sub _ => None
        end
      else Some (regex_of i, n, s)
  | [] => Some (regex_of i, n, s)
  end.

(** After an opening parenthesis: [Some true] for a capturing group,
    [Some false] for [(?:], nothing for the other [(?] forms. *)
Definition group_kind (s : list ascii) : option bool :=
  match s with
  | c :: d :: _ =>
      if Ascii.eqb c "?" then if Ascii.eqb d ":" then Some false else None
      else Some true
  | [c] => if Ascii.eqb c "?" then None else Some true
  | [] => Some true
  end.

(** [n] is the number of the next capturing group: groups are numbered by
    their opening parenthesis, from 1. *)
Fixpoint read_alt (fuel n : nat) (s : list ascii)
  : option (regex * nat * list ascii) :=
  match fuel with
  | 0 => None
  | S fuel =>
      match read_seq fuel n s with
      | Some (r1, n1, c :: s1) =>
          if Ascii.eqb c "|" then
            match read_alt fuel n1 s1 with
            | Some (r2, n2, s2) => Some (Alt r1 r2, n2, s2)
            | None => None
            end
          else Some (r1, n1, c :: s1)
      | other => other
      end
  end
with read_seq (fuel n : nat) (s : list ascii)
  : option (regex * nat * list ascii) :=
  match fuel with
  | 0 => None
  | S fuel =>
      match s with
      | [] => Some (Eps, n, [])
      | c :: _ =>
          if is_one_of "|)" c then Some (Eps, n, s)
          else
            match read_item fuel n s with
            | Some (r1, n1, s1) =>
                match read_seq fuel n1 s1 with
                | Some (r2, n2, s2) => Some (Seq r1 r2, n2, s2)
                | None => None
                end
            | None => None
            end
      end
  end
with read_item (fuel n : nat) (s : list ascii)
  : option (regex * nat * list ascii) :=
  match fuel with
  | 0 => None
  | S fuel =>
      match s with
      | [] => None
      | c :: s1 =>
          if Ascii.eqb c "(" then
            match group_kind s1 with
            | Some false =>
                match read_alt fuel n (skipn 2 s1) with
                | Some (r, n1, d :: s2) =>
                    if Ascii.eqb d ")" then postfix (Sub r) n1 s2 else None
                | _ => None
                end
            | Some true =>
                match read_alt fuel (S n) s1 with
                | Some (r, n1, d :: s2) =>
                    if Ascii.eqb d ")" then postfix (Sub (Group n r)) n1 s2
                    else None
                | _ => None
                end
            | None => None
            end
          else if Ascii.eqb c "[" then
            match s1 with
            | d :: s2 =>
                if Ascii.eqb d "^" then
                  match read_class [] s2 with
                  | Some (cs, s3) => postfix (One (NoneOf cs)) n s3
                  | None => None
                  end
                else None
            | [] => None
            end
          else if Ascii.eqb c "\" then
            match s1 with
            | d :: s2 =>
                if is_alnum d then None else postfix (One (Chr d)) n s2
            | [] => None
            end
          else if Ascii.eqb c "." then postfix (One Dot) n s1
          else if is_one_of "*+?{}^$]" c then None
          else postfix (One (Chr c)) n s1
      end
  end.

(** [re.compile], [None] where the pattern is outside the syntax above. *)
Definition re_compile (pattern : string) : option regex :=
  match read_alt (4 * (String.length pattern + 1)) 1 (chars pattern) with
  | Some (r, _, []) => Some r
  | _ => None
  end.

End Re.

Import Re.

(** ** URL resolver: [extract_shortcode] and [is_valid_instagram_url]

    The two patterns, character for character as [main.py] has them. Both
    literals are raw strings, so each pattern text holds two backslashes
    before the dot of [.com]: to [re] an escaped backslash, then an
    unescaped dot. *)

Definition shortcode_pattern : string :=
  "instagram\\.com/(?:p|reel|tv)/([^/?#&]+)".

Definition valid_url_pattern : string :=
  "https?://(www\\.)?instagram\\.com/(p|reel|tv)/".

Definition shortcode_re : regex :=
  Eval vm_compute in default Eps (re_compile shortcode_pattern).

Definition valid_url_re : regex :=
  Eval vm_compute in default Eps (re_compile valid_url_pattern).

Definition extract_shortcode (instagram_post : string) : option string :=
  match re_search shortcode_re (chars instagram_post) with
  | Some caps => string_of_list_ascii <$> group 1 caps
  | None => None
  end.

Definition is_valid_instagram_url (url : string) : bool :=
  match re_match valid_url_re (chars url) with
  | Some _ => true
  | None => false
  end.

(** ** Data model *)

(** The chat user that [update.effective_user] gives. *)
Module User.
Record t := { id : Z; username : option string; first_name : string }.
End User.

(** One entry of [users.log]: the dict that [log_user_data] builds. *)
Record user_data := {
  user_id : Z;
  username : option string;
  first_name : string;
  timestamp : string
}.

Record date := { year : nat; month : nat; day : nat }.

Record datetime := { dt_date : date; hour : nat; minute : nat; second : nat }.

Definition date_eqb (a b : date) : bool :=
  Nat.eqb (year a) (year b) && Nat.eqb (month a) (month b)
  && Nat.eqb (day a) (day b).

(** [n] in decimal, padded with zeros on the left up to [width] digits. *)
Definition zero_padded (width n : nat) : string :=
  let ds := NilZero.string_of_uint (Nat.to_uint n) in
  string_of_list_ascii (repeat "0"%char (width - String.length ds)) ++ ds.

(** [strftime("%Y-%m-%d %H:%M:%S")]. *)
Definition strftime (t : datetime) : string :=
  zero_padded 4 (year (dt_date t)) ++ "-"
  ++ zero_padded 2 (month (dt_date t)) ++ "-"
  ++ zero_padded 2 (day (dt_date t)) ++ " " ++ zero_padded 2 (hour t) ++ ":"
  ++ zero_padded 2 (minute t) ++ ":" ++ zero_padded 2 (second t).


(** What Python raises, as far as the handlers tell errors apart: they do not,
    every [except Exception] catches them all. *)
Inductive exn :=
| JSONDecodeError     (* [json.load] on a file that is not JSON *)
| ValueError          (* [datetime.strptime] on a malformed timestamp *)
| LookupFailed        (* the provider: private or deleted post, login required *)
| ConnectionError     (* [requests], the chat API *)
| OSError.            (* the local disk *)

Inductive result (A : Type) :=
| Ok (a : A)
| Raise (e : exn).
Arguments Ok {A} a.
Arguments Raise {A} e.

(** [admin.json] holds one JSON object; [admin_id] is what [.get("admin_id")]
    gives on it, [None] when the key is missing or null. *)
Record admin_json := { admin_id : option Z }.

(** [users.log]: either the JSON array of entries, or bytes that [json.load]
    rejects. *)
Inductive users_log :=
| Entries (users : list user_data)
| NotJson.

(** The fixed texts that the bot sends. *)
Inductive text_message :=
| AdminAssigned        (* "You have been set as the admin!" *)
| Welcome              (* "Welcome to the Instagram Saver Bot! ..." *)
| PermissionDenied     (* "You don't have permission to use this command." *)
| NoUsersFound         (* "No users found." *)
| UsersReport (total today : nat) (users : list user_data)
                       (* "Total users: .. Used today: .." and one block per user *)
| UsersError           (* "An error occurred while retrieving user data." *)
| InvalidUrl           (* "Invalid Instagram URL." *)
| FetchingMedia        (* "Fetching media..." *)
| FetchFailed          (* "Failed to fetch media. Make sure it is public." *)
| SendFailed.          (* "Failed to send media." *)

(** What a handler does that the outside sees, in order. *)
Inductive event :=
| ReplyText (m : text_message)            (* [update.message.reply_text] *)
| SendTyping                              (* [chat.send_action(TYPING)] *)
| EditProgress (m : text_message)         (* [progress_message.edit_text] *)
| DeleteProgress                          (* [progress_message.delete] *)
| FromShortcode (shortcode : string)      (* [Post.from_shortcode] *)
| RequestsGet (url : string)              (* [requests.get(url, stream=True)] *)
| ReplyVideo (file_name caption : string)  (* [update.message.reply_video] *)
| ReplyPhoto (file_name caption : string). (* [update.message.reply_photo] *)

(** The working directory and the events so far. [temp_files] maps the name
    of every other file of the directory to its bytes. *)
Record world := {
  admin_file : option admin_json;
  users_file : option users_log;
  temp_files : gmap string (list ascii);
  trace : list event
}.

Definition with_admin_file (a : option admin_json) (w : world) : world :=
  {| admin_file := a; users_file := users_file w;
     temp_files := temp_files w; trace := trace w |}.

Definition with_users_file (u : option users_log) (w : world) : world :=
  {| admin_file := admin_file w; users_file := u;
     temp_files := temp_files w; trace := trace w |}.

Definition with_temp_files (t : gmap string (list ascii)) (w : world) : world :=
  {| admin_file := admin_file w; users_file := users_file w;
     temp_files := t; trace := trace w |}.

Definition with_trace (t : list event) (w : world) : world :=
  {| admin_file := admin_file w; users_file := users_file w;
     temp_files := temp_files w; trace := t |}.

(** ** Statements that change the world and may raise *)

Definition M (A : Type) : Type := world -> world * result A.

Definition ret {A} (a : A) : M A := fun w => (w, Ok a).

Definition raise {A} (e : exn) : M A := fun w => (w, Raise e).

Definition bind {A B} (m : M A) (k : A -> M B) : M B :=
  fun w =>
    match m w with
    | (w', Ok a) => k a w'
    | (w', Raise e) => (w', Raise e)
    end.

Declare Scope py_scope.
Delimit Scope py_scope with py.
Notation "'let*' x := m 'in' k" := (bind m (fun x => k))
  (at level 10, x name, m at level 100, k at level 200, only parsing)
  : py_scope.
Notation "m ;; k" := (bind m (fun _ => k))
  (at level 100, k at level 200, only parsing, right associativity)
  : py_scope.
Local Open Scope py_scope.

(** [try: body / except Exception: handler]. *)
Definition try_except {A} (body : M A) (handler : exn -> M A) : M A :=
  fun w =>
    match body w with
    | (w', Ok a) => (w', Ok a)
    | (w', Raise e) => handler e w'
    end.

(** [try: body / finally: cleanup]: the cleanup runs on every way out, and
    what the body returned or raised goes on unless the cleanup raises. *)
Definition try_finally {A} (body : M A) (cleanup : M unit) : M A :=
  fun w =>
    match body w with
    | (w', r) =>
        match cleanup w' with
        | (w'', Ok _) => (w'', r)
        | (w'', Raise e) => (w'', Raise e)
        end
    end.

Definition lift {A} (r : result A) : M A := fun w => (w, r).

Definition emit (e : event) : M unit :=
  fun w => (with_trace (trace w ++ [e]) w, Ok tt).

Definition when (b : bool) (m : M unit) : M unit := if b then m else ret tt.

(** A chat call that may fail: the call is made, then it raises or not. *)
Definition chat_call (e : event) (ok : bool) : M unit :=
  emit e ;; (if ok then ret tt else raise ConnectionError).

Definition get_world : M world := fun w => (w, Ok w).

Definition modify (f : world -> world) : M unit := fun w => (f w, Ok tt).

(** ** Admin registry: [get_admin] and [set_admin] *)

Definition get_admin (w : world) : option Z :=
  match admin_file w with
  | Some a => admin_id a
  | None => None
  end.

Definition set_admin (user_id : Z) (w : world) : world :=
  match admin_file w with
  | None => with_admin_file (Some {| admin_id := Some user_id |}) w
  | Some _ => w
  end.

(** ** User activity log: [log_user_data] *)

Definition set_timestamp (ts : string) (u : user_data) : user_data :=
  {| user_id := user_id u; username := username u;
     first_name := first_name u; timestamp := ts |}.

(** The [for ... else] loop of [log_user_data]: the first entry with the
    identifier of [new] gets its timestamp and the loop breaks; when the loop
    runs to its end, [new] is appended. *)
Fixpoint refresh_or_append (new : user_data) (users : list user_data)
  : list user_data :=
  match users with
  | [] => [new]
  | existing_user :: rest =>
      if Z.eqb (user_id existing_user) (user_id new)
      then set_timestamp (timestamp new) existing_user :: rest
      else existing_user :: refresh_or_append new rest
  end.

(** [json.load] of [users.log]. *)
Definition load_users (log : users_log) : result (list user_data) :=
  match log with
  | Entries users => Ok users
  | NotJson => Raise JSONDecodeError
  end.

(** [now] is the clock read in Asia/Tashkent. *)
Definition log_user_data (user : User.t) (now : datetime) : M unit :=
  let new := {| user_id := User.id user; username := User.username user;
                first_name := User.first_name user;
                timestamp := strftime now |} in
  try_except
    (let* w := get_world in
     let* users :=
       match users_file w with
       | Some log => lift (load_users log)
       | None => ret []
       end in
     modify (with_users_file (Some (Entries (refresh_or_append new users)))))
    (fun _ => ret tt).

(** The entries of the log, none when there is no log that can be read. *)
Definition entries (w : world) : list user_data :=
  match users_file w with
  | Some (Entries users) => users
  | _ => []
  end.

(** ** String helpers: [str.strip], [in], [str.endswith], [str(int)] *)

Definition is_space (c : ascii) : bool :=
  let n := nat_of_ascii c in
  (Nat.leb 9 n && Nat.leb n 13) || (Nat.leb 28 n && Nat.leb n 32).

Fixpoint lstrip (s : list ascii) : list ascii :=
  match s with
  | c :: s' => if is_space c then lstrip s' else s
  | [] => []
  end.

Definition strip (s : string) : string :=
  string_of_list_ascii (rev (lstrip (rev (lstrip (chars s))))).

Fixpoint starts_with (p s : list ascii) : bool :=
  match p, s with
  | [], _ => true
  | c :: p', d :: s' => Ascii.eqb c d && starts_with p' s'
  | _ :: _, [] => false
  end.

(** [needle in hay]. *)
Fixpoint contains (needle hay : list ascii) : bool :=
  starts_with needle hay ||
  match hay with
  | [] => false
  | _ :: hay' => contains needle hay'
  end.

Definition ends_with (suffix s : list ascii) : bool :=
  starts_with (rev suffix) (rev s).

Definition str_of_int (z : Z) : string := NilEmpty.string_of_int (Z.to_int z).

(** ** What the handlers get from outside *)

(** An incoming message. *)
Record update := { effective_user : User.t; chat_id : Z; text : string }.

(** A post as the provider describes it. *)
Record post := { is_video : bool; video_url : option string; url : string }.

(** A streamed HTTP response: the chunks that [iter_content(1024)] yields,
    and whether the connection breaks after the last of them. *)
Record response := { chunks : list (list ascii); broken : bool }.

(** How the outside answers during one handler call. *)
Record outside := {
  from_shortcode : string -> result post;  (* [Post.from_shortcode] and the
                                              reading of the post's fields *)
  requests_get : string -> result response;
  open_ok : bool;              (* [open(file_name, "wb")] succeeds *)
  write_ok : bool;             (* [f.write(chunk)] succeeds *)
  send_media_ok : bool;        (* [reply_video], [reply_photo] succeed *)
  delete_progress_ok : bool;   (* [progress_message.delete] succeeds *)
  edit_progress_ok : bool      (* [progress_message.edit_text] succeeds *)
}.

Definition caption : string := "👾 Powered by @Instasave_downloader_bot".

Section Handlers.

(** [datetime.strptime(s, "%Y-%m-%d %H:%M:%S")], [None] where it raises. *)
Variable strptime : string -> option datetime.

Variable env : outside.

(** *** URL resolver: [fetch_instagram_data] *)

Definition fetch_instagram_data (instagram_post : string)
  : M (option string) :=
  match extract_shortcode instagram_post with
  | None => ret None
  | Some "" => ret None
  | Some shortcode =>
      try_except
        (emit (FromShortcode shortcode);;
         let* post := lift (from_shortcode env shortcode) in
         ret (if is_video post then video_url post else Some (url post)))
        (fun _ => ret None)
  end.

(** *** The [/start] handler *)

Definition start (upd : update) (now : datetime) : M unit :=
  let user := effective_user upd in
  log_user_data user now;;
  let* w := get_world in
  match get_admin w with
  | None =>
      modify (set_admin (User.id user));;
      emit (ReplyText AdminAssigned)
  | Some _ => ret tt
  end;;
  emit (ReplyText Welcome).

(** *** The [/users] handler *)

(** [sum(1 for u in users if strptime(u['timestamp']).date() == today)]. *)
Fixpoint count_today (today : date) (users : list user_data) : result nat :=
  match users with
  | [] => Ok 0
  | u :: rest =>
      match strptime (timestamp u) with
      | None => Raise ValueError
      | Some t =>
          match count_today today rest with
          | Ok n => Ok ((if date_eqb (dt_date t) today then 1 else 0) + n)
          | Raise e => Raise e
          end
      end
  end.

Definition list_users (upd : update) (now : datetime) : M unit :=
  let user := effective_user upd in
  let* w := get_world in
  if negb (bool_decide (Some (User.id user) = get_admin w))
  then emit (ReplyText PermissionDenied)
  else
    try_except
      (match users_file w with
       | None => emit (ReplyText NoUsersFound)
       | Some log =>
           let* users := lift (load_users log) in
           let today := dt_date now in
           let* today_users := lift (count_today today users) in
           emit (ReplyText (UsersReport (length users) today_users users))
       end)
      (fun _ => emit (ReplyText UsersError)).

(** *** The text handler: [download] *)

Definition exists_file (name : string) : M bool :=
  fun w => (w, Ok (bool_decide (is_Some (temp_files w !! name)))).

(** [open(name, "wb")]: the file is there and empty from then on. *)
Definition open_wb (name : string) : M unit :=
  if open_ok env
  then modify (fun w => with_temp_files (<[name := []]> (temp_files w)) w)
  else raise OSError.

(** [f.write(chunk)]. *)
Definition write (name : string) (chunk : list ascii) : M unit :=
  if write_ok env
  then modify (fun w =>
         with_temp_files
           (<[name := default [] (temp_files w !! name) ++ chunk]>
              (temp_files w)) w)
  else raise OSError.

Fixpoint write_all (name : string) (cs : list (list ascii)) : M unit :=
  match cs with
  | [] => ret tt
  | chunk :: rest => write name chunk;; write_all name rest
  end.

(** [os.remove(name)]. *)
Definition remove (name : string) : M unit :=
  modify (fun w => with_temp_files (delete name (temp_files w)) w).

Definition temp_name (media_url : string) (chat : Z) : string :=
  if contains (chars "video") (chars media_url)
  then "temp_" ++ str_of_int chat ++ ".mp4"
  else "temp_" ++ str_of_int chat ++ ".jpg".

(** Lines 175 to 195 of [download]: the relay of the resolved media. *)
Definition relay (media_url : string) (chat : Z) : M unit :=
  let file_name := temp_name media_url chat in
  try_finally
    (try_except
       (emit (RequestsGet media_url);;
        let* response := lift (requests_get env media_url) in
        open_wb file_name;;
        write_all file_name (chunks response);;
        (if broken response then raise ConnectionError else ret tt);;
        (if ends_with (chars ".mp4") (chars file_name)
         then chat_call (ReplyVideo file_name caption) (send_media_ok env)
         else chat_call (ReplyPhoto file_name caption) (send_media_ok env));;
        chat_call DeleteProgress (delete_progress_ok env))
       (fun _ =>
          chat_call (EditProgress SendFailed) (edit_progress_ok env)))
    (let* there := exists_file file_name in
     when there (remove file_name)).

Definition download (upd : update) (now : datetime) : M unit :=
  let user := effective_user upd in
  log_user_data user now;;
  let instagram_post := strip (text upd) in
  if negb (is_valid_instagram_url instagram_post)
  then emit (ReplyText InvalidUrl)
  else
    emit SendTyping;;
    emit (ReplyText FetchingMedia);;
    let* media_url := fetch_instagram_data instagram_post in
    match media_url with
    | None | Some "" => emit (EditProgress FetchFailed)
    | Some media_url => relay media_url (chat_id upd)
    end.

End Handlers.

(** ** Notions that the properties are stated with *)

(** [r] matches only at subjects that hold the character [c]. *)
Definition needs (c : ascii) (r : regex) : Prop :=
  forall s caps m, In m (rmatch r s caps) -> In c s.

(** [r] leaves the captures as they are. *)
Definition capture_free (r : regex) : Prop :=
  forall s caps rest caps', In (rest, caps') (rmatch r s caps) -> caps' = caps.

(** [stable R m]: the world after [m] is related by [R] to the world before,
    whether [m] returns or raises. *)
Definition stable (R : relation world) {A} (m : M A) : Prop :=
  forall w, R w (fst (m w)).

(** The trace only grows. *)
Definition grows (w w' : world) : Prop :=
  exists tail, trace w' = trace w ++ tail.

(** Nothing changes but the trace and the temp file [name]. *)
Definition touches_only (name : string) (w w' : world) : Prop :=
  admin_file w' = admin_file w /\ users_file w' = users_file w
  /\ forall other, other <> name ->
       temp_files w' !! other = temp_files w !! other.

(** The world after [log_user_data]: a log that cannot be read stays as it
    is, since the exception is caught before anything is written. *)
Definition logged (user : User.t) (now : datetime) (w : world) : world :=
  let new := {| user_id := User.id user; username := User.username user;
                first_name := User.first_name user;
                timestamp := strftime now |} in
  match users_file w with
  | None => with_users_file (Some (Entries [new])) w
  | Some (Entries users) =>
      with_users_file (Some (Entries (refresh_or_append new users))) w
  | Some NotJson => w
  end.

(** How often the identifier [i] occurs in a log. *)
Definition occurrences (i : Z) (users : list user_data) : nat :=
  count_occ Z.eq_dec (List.map user_id users) i.

(** [set_admin] with each of [ids] in turn. *)
Definition set_admin_each (ids : list Z) (w : world) : world :=
  fold_left (fun w i => set_admin i w) ids w.

(** Whether the stored timestamp of [u] reads as a time on the day [today]. *)
Definition dated (strptime : string -> option datetime) (today : date)
  (u : user_data) : bool :=
  match strptime (timestamp u) with
  | Some t => date_eqb (dt_date t) today
  | None => false
  end.

(** The upload that the relay makes of [media_url]. *)
Definition upload_of (media_url : string) (chat : Z) : event :=
  if contains (chars "video") (chars media_url)
  then ReplyVideo ("temp_" ++ str_of_int chat ++ ".mp4") caption
  else ReplyPhoto ("temp_" ++ str_of_int chat ++ ".jpg") caption.

(** ** A sample run, for the properties to be tried on *)

Module Sample.

(** [strptime] on the timestamps that [strftime] writes: digits in fields
    of four, two, two, two, two and two. *)
Definition digit (c : ascii) : option nat :=
  let n := nat_of_ascii c in
  if Nat.leb 48 n && Nat.leb n 57 then Some (n - 48) else None.

Fixpoint number (acc : nat) (l : list ascii) : option nat :=
  match l with
  | [] => Some acc
  | c :: l' =>
      match digit c with
      | Some d => number (10 * acc + d) l'
      | None => None
      end
  end.

Definition strptime (s : string) : option datetime :=
  match chars s with
  | [y1; y2; y3; y4; "-"; m1; m2; "-"; d1; d2; " ";
     h1; h2; ":"; i1; i2; ":"; s1; s2]%char =>
      match number 0 [y1; y2; y3; y4], number 0 [m1; m2],
            number 0 [d1; d2], number 0 [h1; h2], number 0 [i1; i2],
            number 0 [s1; s2] with
      | Some y, Some m, Some d, Some h, Some i, Some sec =>
          Some {| dt_date := {| year := y; month := m; day := d |};
                  hour := h; minute := i; second := sec |}
      | _, _, _, _, _, _ => None
      end
  | _ => None
  end.

Definition alice : User.t :=
  {| User.id := 7%Z; User.username := Some "alice";
     User.first_name := "Alice" |}.

Definition noon : datetime :=
  {| dt_date := {| year := 2024; month := 3; day := 10 |};
     hour := 12; minute := 0; second := 0 |}.

Definition bob_entry : user_data :=
  {| user_id := 3%Z; username := None; first_name := "Bob";
     timestamp := "2024-03-09 23:59:59" |}.

Definition alice_entry : user_data :=
  {| user_id := 7%Z; username := Some "al"; first_name := "Al";
     timestamp := "2024-03-10 00:00:01" |}.

Definition running : world :=
  {| admin_file := Some {| admin_id := Some 7%Z |};
     users_file := Some (Entries [bob_entry; alice_entry]);
     temp_files := {[ "temp_5.jpg" := chars "old" ]};
     trace := [] |}.

Definition fresh : world :=
  {| admin_file := None; users_file := None;
     temp_files := ∅; trace := [] |}.

Definition from_alice (t : string) : update :=
  {| effective_user := alice; chat_id := 42%Z; text := t |}.

Definition online : outside :=
  {| from_shortcode := fun _ =>
       Ok {| is_video := true; video_url := Some "https://cdn/video/1";
             url := "https://cdn/1.jpg" |};
     requests_get := fun _ =>
       Ok {| chunks := [chars "ab"; chars "c"]; broken := false |};
     open_ok := true; write_ok := true; send_media_ok := true;
     delete_progress_ok := true; edit_progress_ok := true |}.

End Sample.


Import Sample.
(** ** Session store: [load_or_create_session]

    What the session file holds: a session that [load_session_from_file]
    reads back, or bytes that it refuses. *)
Inductive session_bytes :=
| Pickled (session : string)
| Unreadable.

(** The session file on disk and the session that [loader] holds. *)
Record startup := {
  session_file : option session_bytes;
  loader_session : option string
}.

Inductive startup_error :=
| BadSessionFile      (* [load_session_from_file] raises *)
| LoginFailed.        (* [loader.login] raises *)

(** [login] is what [loader.login(USERNAME, PASSWORD)] does when it is
    called: the session it opens, or nothing when it raises. The body runs
    under [session_lock], one caller at a time; the writing of the session
    file is taken to succeed. *)
Definition load_or_create_session (login : option string) (st : startup)
  : startup * option startup_error :=
  match session_file st with
  | Some (Pickled session) =>
      ({| session_file := session_file st; loader_session := Some session |},
       None)
  | Some Unreadable => (st, Some BadSessionFile)
  | None =>
      match login with
      | Some session =>
          ({| session_file := Some (Pickled session);
              loader_session := Some session |}, None)
      | None => (st, Some LoginFailed)
      end
  end.

(** ** Further notions for the properties *)

(** The texts that the URL check is made for: [http] or [https], [://], an
    optional [www] with a backslash and one more character, [instagram], a
    backslash and one more character, [com/], and the kind of post with its
    slash. *)
Definition url_head (secure www : bool) (d c : ascii) (kind : list ascii)
  : list ascii :=
  chars "http" ++ (if secure then chars "s" else []) ++ chars "://"
  ++ (if www then chars "www\" ++ [d] else [])
  ++ chars "instagram\" ++ [c] ++ chars "com/" ++ kind ++ chars "/".

Definition is_kind (kind : list ascii) : Prop :=
  kind = chars "p" \/ kind = chars "reel" \/ kind = chars "tv".

Definition newline : ascii := "010".

(** The characters at which a shortcode stops. *)
Definition is_stop (c : ascii) : bool := is_one_of "/?#&" c.

(** The entry that [log_user_data] builds for [user] at [now]. *)
Definition entry_of (user : User.t) (now : datetime) : user_data :=
  {| user_id := User.id user; username := User.username user;
     first_name := User.first_name user; timestamp := strftime now |}.

(** Lines 178 to 181 of [download]: the media streamed into the temp file. *)
Definition fetch_to_file (env : outside) (media_url file_name : string)
  : M unit :=
  emit (RequestsGet media_url);;
  let* response := lift (requests_get env media_url) in
  open_wb env file_name;;
  write_all env file_name (chunks response);;
  (if broken response then raise ConnectionError else ret tt).

(** Whether the relay's download comes to its end. *)
Definition download_completes (env : outside) (media_url : string) : bool :=
  match requests_get env media_url with
  | Ok response =>
      open_ok env
      && (write_ok env || match chunks response with [] => true | _ => false end)
      && negb (broken response)
  | Raise _ => false
  end.

(** ** More of the sample run *)

Module Sample2.

Definition bob : User.t :=
  {| User.id := 3%Z; User.username := None; User.first_name := "Bob" |}.

Definition from_bob (t : string) : update :=
  {| effective_user := bob; chat_id := 43%Z; text := t |}.

(** An admin file without an [admin_id]. *)
Definition orphaned : world :=
  {| admin_file := Some {| admin_id := None |}; users_file := None;
     temp_files := ∅; trace := [] |}.

(** Alice is the admin, and nobody is recorded yet. *)
Definition unrecorded : world :=
  {| admin_file := Some {| admin_id := Some 7%Z |}; users_file := None;
     temp_files := ∅; trace := [] |}.

(** The provider and the media host do not answer. *)
Definition offline : outside :=
  {| from_shortcode := fun _ => Raise LookupFailed;
     requests_get := fun _ => Raise ConnectionError;
     open_ok := true; write_ok := true; send_media_ok := true;
     delete_progress_ok := true; edit_progress_ok := true |}.

Definition no_session : startup :=
  {| session_file := None; loader_session := None |}.


End Sample2.

Import Sample2.

(** * Properties *)

(** ** The matcher *)

Lemma plus_rests_suffix a s rest :
  In rest (plus_rests a s) -> exists pre, pre <> [] /\ s = pre ++ rest.
Proof.
  revert rest. induction s as [|c s IH]; simpl; intros rest H; [easy|].
  destruct (atom_ok a c); [|easy].
  apply in_app_or in H. destruct H as [H|[<-|[]]].
  - destruct (IH _ H) as (pre & _ & ->). now exists (c :: pre).
  - now exists [c].
Qed.

(** A match consumes a prefix of the subject. *)
Lemma rmatch_suffix r : forall s caps rest caps',
  In (rest, caps') (rmatch r s caps) -> exists pre, s = pre ++ rest.
Proof.
  induction r as [|a|r1 IH1 r2 IH2|r1 IH1 r2 IH2|r IH|a|n r IH];
    simpl; intros s caps rest caps' H.
  - destruct H as [[= <- _]|[]]. now exists [].
  - destruct s as [|c s]; [easy|]. destruct (atom_ok a c); [|easy].
    destruct H as [[= <- _]|[]]. now exists [c].
  - apply in_flat_map in H. destruct H as ([mid cm] & H1 & H2).
    simpl in H2. destruct (IH1 _ _ _ _ H1) as (p1 & ->).
    destruct (IH2 _ _ _ _ H2) as (p2 & ->).
    exists (p1 ++ p2). now rewrite <- app_assoc.
  - apply in_app_or in H. destruct H; eauto.
  - apply in_app_or in H. destruct H as [H|[[= <- _]|[]]]; eauto.
    now exists [].
  - apply in_map_iff in H. destruct H as (x & [= -> _] & H).
    destruct (plus_rests_suffix _ _ _ H) as (pre & _ & ->). eauto.
  - apply in_map_iff in H. destruct H as ([x cx] & [= -> _] & H). eauto.
Qed.

Lemma needs_chr c : needs c (Atom (Chr c)).
Proof.
  intros [|d s] caps m; simpl; [easy|].
  destruct (Ascii.eqb_spec d c) as [->|]; [now left|easy].
Qed.

Lemma needs_seq_l c r1 r2 : needs c r1 -> needs c (Seq r1 r2).
Proof.
  intros H s caps m Hm. simpl in Hm. apply in_flat_map in Hm.
  destruct Hm as (x & Hx & _). eauto.
Qed.

Lemma needs_seq_r c r1 r2 : needs c r2 -> needs c (Seq r1 r2).
Proof.
  intros H s caps m Hm. simpl in Hm. apply in_flat_map in Hm.
  destruct Hm as ([mid cm] & Hx & Hm). simpl in Hm.
  destruct (rmatch_suffix _ _ _ _ _ Hx) as (pre & ->).
  apply in_or_app. right. exact (H _ _ _ Hm).
Qed.

Lemma re_match_needs c r s :
  needs c r -> ~ In c s -> re_match r s = None.
Proof.
  intros H Hs. unfold re_match.
  destruct (rmatch r s []) as [|m l] eqn:E; [reflexivity|].
  exfalso. apply Hs, (H s [] m). rewrite E. now left.
Qed.

Lemma re_search_needs c r s :
  needs c r -> ~ In c s -> re_search r s = None.
Proof.
  intros H. induction s as [|d s IH]; intros Hs; simpl.
  - destruct (rmatch r [] []) as [|m l] eqn:E; [reflexivity|].
    exfalso. apply Hs, (H [] [] m). rewrite E. now left.
  - destruct (rmatch r (d :: s) []) as [|m l] eqn:E.
    + apply IH. intros Hin. apply Hs. now right.
    + exfalso. apply Hs, (H (d :: s) [] m). rewrite E. now left.
Qed.

Lemma shortcode_re_compiled : re_compile shortcode_pattern = Some shortcode_re.
Proof. vm_compute. reflexivity. Qed.

Lemma valid_url_re_compiled : re_compile valid_url_pattern = Some valid_url_re.
Proof. vm_compute. reflexivity. Qed.

Ltac needs_backslash :=
  repeat first [ apply needs_seq_l; apply needs_chr | apply needs_seq_r ].

(** Both patterns ask for a backslash after [instagram]. *)
Lemma shortcode_re_needs_backslash : needs "\" shortcode_re.
Proof. unfold shortcode_re. needs_backslash. Qed.

Lemma valid_url_re_needs_backslash : needs "\" valid_url_re.
Proof. unfold valid_url_re. needs_backslash. Qed.

(** No text without a backslash passes the URL check or yields a shortcode:
    so it is with every URL of a browser's address bar. *)
Lemma no_backslash_no_match (url : string) :
  ~ In "\"%char (chars url) ->
  is_valid_instagram_url url = false /\ extract_shortcode url = None.
Proof.
  intros H. unfold is_valid_instagram_url, extract_shortcode.
  rewrite (re_match_needs _ _ _ valid_url_re_needs_backslash H).
  now rewrite (re_search_needs _ _ _ shortcode_re_needs_backslash H).
Qed.

(** C1, as the code has it: the supported URLs of the specification,
    [https://instagram.com/p/ABC], [http://www.instagram.com/reel/XYZ123] and
    a [tv] one, are all rejected by [is_valid_instagram_url], and
    [extract_shortcode] finds no shortcode in them, where the claim asks for
    [true] and for the segments [ABC], [XYZ123] and [Q1]. *)
Theorem supported_urls_are_rejected :
  is_valid_instagram_url "https://instagram.com/p/ABC" = false
  /\ extract_shortcode "https://instagram.com/p/ABC" = None
  /\ is_valid_instagram_url "http://www.instagram.com/reel/XYZ123" = false
  /\ extract_shortcode "http://www.instagram.com/reel/XYZ123" = None
  /\ is_valid_instagram_url "https://www.instagram.com/tv/Q1" = false
  /\ extract_shortcode "https://www.instagram.com/tv/Q1" = None.
Proof. repeat split; vm_compute; reflexivity. Qed.

(** ** What every step of a handler preserves

    For a reflexive and transitive [R], [stable R] goes through sequencing,
    [try], [except] and [finally]. *)

Section Stable.

Context (R : relation world) `{!PreOrder R}.

Lemma stable_ret {A} (a : A) : stable R (ret a).
Proof. intros w. reflexivity. Qed.

Lemma stable_raise {A} e : stable R (@raise A e).
Proof. intros w. reflexivity. Qed.

Lemma stable_lift {A} (r : result A) : stable R (lift r).
Proof. intros w. reflexivity. Qed.

Lemma stable_get_world : stable R get_world.
Proof. intros w. reflexivity. Qed.

Lemma stable_modify f : (forall w, R w (f w)) -> stable R (modify f).
Proof. intros H w. apply H. Qed.

Lemma stable_bind {A B} (m : M A) (k : A -> M B) :
  stable R m -> (forall a, stable R (k a)) -> stable R (bind m k).
Proof.
  intros Hm Hk w. unfold bind. specialize (Hm w).
  destruct (m w) as [w1 [a|e]]; simpl in Hm; [|exact Hm].
  etransitivity; [exact Hm|apply Hk].
Qed.

Lemma stable_try_except {A} (body : M A) handler :
  stable R body -> (forall e, stable R (handler e)) ->
  stable R (try_except body handler).
Proof.
  intros Hm Hk w. unfold try_except. specialize (Hm w).
  destruct (body w) as [w1 [a|e]]; simpl in Hm; [exact Hm|].
  etransitivity; [exact Hm|apply Hk].
Qed.

Lemma stable_try_finally {A} (body : M A) cleanup :
  stable R body -> stable R cleanup -> stable R (try_finally body cleanup).
Proof.
  intros Hm Hk w. unfold try_finally. specialize (Hm w).
  destruct (body w) as [w1 r]; simpl in Hm. specialize (Hk w1).
  destruct (cleanup w1) as [w2 [[]|e]]; simpl in *;
    (etransitivity; [exact Hm|exact Hk]).
Qed.

Lemma stable_if {A} (b : bool) (m1 m2 : M A) :
  stable R m1 -> stable R m2 -> stable R (if b then m1 else m2).
Proof. now destruct b. Qed.

Lemma stable_when b m : stable R m -> stable R (when b m).
Proof. intros H. destruct b; [exact H|apply stable_ret]. Qed.

(** The relay, for an [R] that lets events be added and the relay's own
    temp file be written and removed. *)
Variable env : outside.
Variable media_url : string.
Variable chat : Z.

Hypothesis R_emit : forall w e, R w (with_trace (trace w ++ [e]) w).
Hypothesis R_write : forall w bytes,
  R w (with_temp_files
         (<[temp_name media_url chat := bytes]> (temp_files w)) w).
Hypothesis R_remove : forall w,
  R w (with_temp_files (delete (temp_name media_url chat) (temp_files w)) w).

Lemma stable_emit e : stable R (emit e).
Proof. intros w. apply R_emit. Qed.

Lemma stable_chat_call e ok : stable R (chat_call e ok).
Proof.
  unfold chat_call. apply stable_bind; [apply stable_emit|].
  intros _. destruct ok; [apply stable_ret|apply stable_raise].
Qed.

Lemma stable_write_all cs :
  stable R (write_all env (temp_name media_url chat) cs).
Proof.
  induction cs as [|c cs IH]; simpl; [apply stable_ret|].
  apply stable_bind; [|intros _; exact IH]. unfold write.
  apply stable_if; [|apply stable_raise].
  apply stable_modify. intros w. apply R_write.
Qed.

Lemma stable_relay : stable R (relay env media_url chat).
Proof.
  unfold relay. apply stable_try_finally.
  - apply stable_try_except; [|intros _; apply stable_chat_call].
    apply stable_bind; [apply stable_emit|intros _].
    apply stable_bind; [apply stable_lift|intros resp].
    apply stable_bind; [|intros _].
    { unfold open_wb. apply stable_if; [|apply stable_raise].
      apply stable_modify. intros w. apply R_write. }
    apply stable_bind; [apply stable_write_all|intros _].
    apply stable_bind; [apply stable_if; [apply stable_raise|apply stable_ret]|].
    intros _. apply stable_bind; [|intros _; apply stable_chat_call].
    apply stable_if; apply stable_chat_call.
  - apply stable_bind; [intros w; reflexivity|].
    intros there. apply stable_when, stable_modify. intros w. apply R_remove.
Qed.

End Stable.

#[export] Instance grows_preorder : PreOrder grows.
Proof.
  split.
  - intros w. exists []. now rewrite app_nil_r.
  - intros a b c (t1 & E1) (t2 & E2). exists (t1 ++ t2).
    now rewrite E2, E1, app_assoc.
Qed.

#[export] Instance touches_only_preorder name : PreOrder (touches_only name).
Proof.
  split.
  - intros w. now repeat split.
  - intros a b c (A1 & U1 & T1) (A2 & U2 & T2). repeat split; try congruence.
    intros other H. now rewrite T2, T1.
Qed.

(** The relay adds events to the trace and removes none. *)
Lemma relay_grows env media_url chat w :
  grows w (fst (relay env media_url chat w)).
Proof.
  apply (stable_relay grows).
  - intros w0 e. now exists [e].
  - intros w0 bytes. exists []. simpl. now rewrite app_nil_r.
  - intros w0. exists []. simpl. now rewrite app_nil_r.
Qed.

(** The relay leaves the registry, the log and every other file alone. *)
Lemma relay_touches_only env media_url chat w :
  touches_only (temp_name media_url chat) w (fst (relay env media_url chat w)).
Proof.
  apply (stable_relay (touches_only (temp_name media_url chat))).
  - intros w0 e. now repeat split.
  - intros w0 bytes. repeat split; simpl.
    intros other H. now rewrite lookup_insert_ne.
  - intros w0. repeat split; simpl.
    intros other H. now rewrite lookup_delete_ne.
Qed.

(** ** The user activity log *)

(** [log_user_data] never raises. *)
Lemma log_user_data_logged user now w :
  log_user_data user now w = (logged user now w, Ok tt).
Proof.
  unfold log_user_data, logged, try_except, bind, get_world; simpl.
  destruct (users_file w) as [[users|]|]; reflexivity.
Qed.

Lemma logged_trace user now w : trace (logged user now w) = trace w.
Proof. unfold logged. now destruct (users_file w) as [[|]|]. Qed.

Lemma logged_temp_files user now w :
  temp_files (logged user now w) = temp_files w.
Proof. unfold logged. now destruct (users_file w) as [[|]|]. Qed.

Lemma logged_admin_file user now w :
  admin_file (logged user now w) = admin_file w.
Proof. unfold logged. now destruct (users_file w) as [[|]|]. Qed.

(** ** The URL check of [download] *)

(** Where the URL check fails, [download] records the user, replies that the
    URL is invalid, and does nothing else. *)
Lemma download_rejects env upd now w :
  is_valid_instagram_url (strip (text upd)) = false ->
  download env upd now w =
    (let w' := logged (effective_user upd) now w in
     with_trace (trace w' ++ [ReplyText InvalidUrl]) w', Ok tt).
Proof.
  intros H. unfold download, bind. rewrite log_user_data_logged, H.
  reflexivity.
Qed.

(** C2, as the code has it: the text [https://instagram\.com/p/A], with a
    backslash where a URL has none, does not hold [instagram.com/]; yet
    [is_valid_instagram_url] accepts it and [download] goes on to look the
    shortcode [A] up at the provider, where the claim asks for a rejection
    before any resolution. *)
Theorem backslash_text_is_resolved :
  forall env user chat now w,
    contains (chars "instagram.com/") (chars "https://instagram\.com/p/A")
      = false
    /\ is_valid_instagram_url (strip "https://instagram\.com/p/A") = true
    /\ exists tail,
        trace (fst (download env
                      {| effective_user := user; chat_id := chat;
                         text := "https://instagram\.com/p/A" |} now w))
        = trace w ++ [SendTyping; ReplyText FetchingMedia; FromShortcode "A"]
            ++ tail.
Proof.
  intros env user chat now w.
  split; [vm_compute; reflexivity|]. split; [vm_compute; reflexivity|].
  unfold download, bind; simpl text. rewrite log_user_data_logged.
  replace (is_valid_instagram_url (strip "https://instagram\.com/p/A"))
    with true by (vm_compute; reflexivity).
  simpl. unfold fetch_instagram_data.
  replace (extract_shortcode (strip "https://instagram\.com/p/A"))
    with (Some "A") by (vm_compute; reflexivity).
  unfold try_except, bind, lift; simpl. rewrite logged_trace.
  destruct (from_shortcode env "A") as [p|e]; simpl.
  - destruct (if is_video p then video_url p else Some (url p))
      as [[|c media_url]|]; simpl.
    + exists [EditProgress FetchFailed]. now rewrite <- !app_assoc.
    + match goal with
      | |- context [relay env ?u chat ?w0] =>
          destruct (relay_grows env u chat w0) as (tail & ->)
      end.
      exists tail. simpl. now rewrite <- !app_assoc.
    + exists [EditProgress FetchFailed]. now rewrite <- !app_assoc.
  - exists [EditProgress FetchFailed]. now rewrite <- !app_assoc.
Qed.

(** ** Recording a known user *)

Lemma refresh_at new before existing after :
  user_id existing = user_id new ->
  (forall u, In u before -> user_id u <> user_id new) ->
  refresh_or_append new (before ++ existing :: after)
  = before ++ set_timestamp (timestamp new) existing :: after.
Proof.
  intros He. induction before as [|u before IH]; intros Hb; simpl.
  - now rewrite He, Z.eqb_refl.
  - destruct (Z.eqb_spec (user_id u) (user_id new)) as [E|_].
    + exfalso. apply (Hb u); [now left|exact E].
    + f_equal. apply IH. intros v Hv. apply Hb. now right.
Qed.

Lemma refresh_absent new users :
  (forall u, In u users -> user_id u <> user_id new) ->
  refresh_or_append new users = users ++ [new].
Proof.
  induction users as [|u users IH]; intros H; simpl; [reflexivity|].
  destruct (Z.eqb_spec (user_id u) (user_id new)) as [E|_].
  - exfalso. apply (H u); [now left|exact E].
  - f_equal. apply IH. intros v Hv. apply H. now right.
Qed.

(** The first entry with a given identifier, and what is around it. *)
Lemma first_entry_with i users :
  (exists u, In u users /\ user_id u = i) ->
  exists before existing after,
    users = before ++ existing :: after /\ user_id existing = i
    /\ forall u, In u before -> user_id u <> i.
Proof.
  induction users as [|u users IH]; intros (v & Hv & E); [easy|].
  destruct (Z.eq_dec (user_id u) i) as [Eu|Nu].
  - exists [], u, users. now repeat split.
  - destruct Hv as [->|Hv]; [congruence|].
    destruct IH as (before & existing & after & -> & He & Hb); [eauto|].
    exists (u :: before), existing, after. repeat split; [exact He|].
    intros x [<-|Hx]; auto.
Qed.

Lemma refresh_ids new users :
  (exists u, In u users /\ user_id u = user_id new) ->
  List.map user_id (refresh_or_append new users) = List.map user_id users.
Proof.
  intros H. destruct (first_entry_with _ _ H)
    as (before & existing & after & -> & He & Hb).
  rewrite refresh_at by assumption. now rewrite !List.map_app.
Qed.

Lemma refresh_has_id new users :
  exists u, In u (refresh_or_append new users) /\ user_id u = user_id new
            /\ timestamp u = timestamp new.
Proof.
  induction users as [|u users IH]; simpl.
  - exists new. repeat split. now left.
  - destruct (Z.eqb_spec (user_id u) (user_id new)) as [E|_].
    + exists (set_timestamp (timestamp new) u). repeat split; [now left|exact E].
    + destruct IH as (v & Hv & Ev). exists v. split; [now right|exact Ev].
Qed.

Lemma entries_logged_readable user now w :
  users_file w <> Some NotJson ->
  entries (logged user now w)
  = refresh_or_append
      {| user_id := User.id user; username := User.username user;
         first_name := User.first_name user; timestamp := strftime now |}
      (entries w).
Proof.
  unfold logged, entries. destruct (users_file w) as [[users|]|]; easy.
Qed.

Lemma logged_unreadable user now w :
  users_file w = Some NotJson -> logged user now w = w.
Proof. unfold logged. now intros ->. Qed.

(** The log after recording a user whose identifier is already there. *)
Lemma logged_known user now w :
  (exists u, In u (entries w) /\ user_id u = User.id user) ->
  length (entries (logged user now w)) = length (entries w)
  /\ (forall i, occurrences i (entries (logged user now w))
                = occurrences i (entries w))
  /\ exists u, In u (entries (logged user now w))
               /\ user_id u = User.id user /\ timestamp u = strftime now.
Proof.
  intros H.
  assert (Hr : users_file w <> Some NotJson).
  { intros E. destruct H as (u & Hu & _). unfold entries in Hu.
    now rewrite E in Hu. }
  rewrite entries_logged_readable by exact Hr.
  set (new := {| user_id := User.id user |}).
  assert (Hids := refresh_ids new (entries w) H).
  repeat split.
  - rewrite <- (List.length_map user_id), Hids. apply List.length_map.
  - intros i. unfold occurrences. now rewrite Hids.
  - apply (refresh_has_id new).
Qed.

Lemma logged_holds_id user again now w :
  users_file w <> Some NotJson -> User.id again = User.id user ->
  exists u, In u (entries (logged user now w)) /\ user_id u = User.id again.
Proof.
  intros Hr Hid. rewrite entries_logged_readable by exact Hr.
  destruct (refresh_has_id
    {| user_id := User.id user; username := User.username user;
       first_name := User.first_name user; timestamp := strftime now |}
    (entries w)) as (u & Hu & Eu & _).
  exists u. split; [exact Hu|]. now rewrite Hid.
Qed.

(** C3: recording a user whose identifier the log already holds writes the
    new timestamp into a record of that identifier and appends nothing: the
    log keeps its length and every identifier occurs as often as before. So
    it is for the second of two recordings of one identifier, whatever the
    log was before the first, and whatever handle or name comes with it. *)
Theorem log_user_data_twice_no_duplicate :
  forall user now w,
    (exists u, In u (entries w) /\ user_id u = User.id user) ->
    (let w' := fst (log_user_data user now w) in
     length (entries w') = length (entries w)
     /\ (forall i, occurrences i (entries w') <= occurrences i (entries w))
     /\ exists u, In u (entries w')
                  /\ user_id u = User.id user /\ timestamp u = strftime now)
    /\ forall again later w0,
         User.id again = User.id user ->
         let w1 := fst (log_user_data user now w0) in
         let w2 := fst (log_user_data again later w1) in
         length (entries w2) = length (entries w1)
         /\ (forall i, occurrences i (entries w2) <= occurrences i (entries w1))
         /\ (users_file w0 <> Some NotJson ->
             exists u, In u (entries w2)
                       /\ user_id u = User.id user
                       /\ timestamp u = strftime later).
Proof.
  intros user now w H. split.
  - rewrite log_user_data_logged; simpl.
    destruct (logged_known user now w H) as (L & O & T).
    repeat split; [exact L| |exact T]. intros i. now rewrite O.
  - intros again later w0 Hid. cbv zeta.
    rewrite (log_user_data_logged user now w0). cbn [fst].
    rewrite log_user_data_logged. cbn [fst].
    assert (D : users_file w0 = Some NotJson \/ users_file w0 <> Some NotJson)
      by (destruct (users_file w0) as [[|]|]; [right|left|right]; easy).
    destruct D as [E|Hr].
    + rewrite (logged_unreadable user now w0 E).
      rewrite (logged_unreadable again later w0 E).
      split; [reflexivity|]. split; [intros i; lia|]. intros N. now destruct N.
    + destruct (logged_known again later _
                  (logged_holds_id user again now w0 Hr Hid)) as (L & O & T).
      split; [exact L|]. split; [intros i; now rewrite O|].
      intros _. now rewrite <- Hid.
Qed.

(** C10: where the log holds a record with the caller's identifier, the
    first such record gets the new timestamp and keeps its stored
    identifier, handle and name, whatever the caller's are now; the records
    before and after it are written back as they were, and nothing else of
    the world changes. *)
Theorem log_user_data_changes_timestamp_only :
  forall user now w before existing after,
    users_file w = Some (Entries (before ++ existing :: after)) ->
    user_id existing = User.id user ->
    (forall u, In u before -> user_id u <> User.id user) ->
    log_user_data user now w
    = (with_users_file
         (Some (Entries
            (before
             ++ {| user_id := user_id existing;
                   username := username existing;
                   first_name := first_name existing;
                   timestamp := strftime now |} :: after))) w,
       Ok tt).
Proof.
  intros user now w before existing after E He Hb.
  rewrite log_user_data_logged. unfold logged. rewrite E.
  now rewrite refresh_at.
Qed.

(** ** The admin registry *)

Lemma set_admin_exists i w :
  admin_file w <> None -> set_admin i w = w.
Proof. unfold set_admin. now destruct (admin_file w). Qed.

Lemma set_admin_each_exists ids w :
  admin_file w <> None -> set_admin_each ids w = w.
Proof.
  revert w. induction ids as [|i ids IH]; intros w H; simpl; [reflexivity|].
  rewrite set_admin_exists by exact H. now apply IH.
Qed.

(** C4: with an admin file in place [set_admin] changes nothing, whatever
    the identifier; without one it writes the identifier, and from then on
    [get_admin] gives that first identifier, however many calls of
    [set_admin] follow. *)
Theorem set_admin_first_writer_wins :
  forall w,
    (forall i, admin_file w <> None -> set_admin i w = w)
    /\ (forall first later,
          admin_file w = None ->
          admin_file (set_admin first w) = Some {| admin_id := Some first |}
          /\ get_admin (set_admin first w) = Some first
          /\ set_admin_each later (set_admin first w) = set_admin first w
          /\ get_admin (set_admin_each later (set_admin first w))
             = Some first).
Proof.
  intros w. split; [intros i; apply set_admin_exists|].
  intros first later H.
  assert (A : admin_file (set_admin first w)
              = Some {| admin_id := Some first |})
    by (unfold set_admin; now rewrite H).
  assert (G : get_admin (set_admin first w) = Some first)
    by (unfold get_admin; now rewrite A).
  assert (S : set_admin_each later (set_admin first w) = set_admin first w)
    by (apply set_admin_each_exists; now rewrite A).
  now rewrite S.
Qed.

(** C9: with no admin file [get_admin] gives [None], and [list_users]
    answers every caller with the permission-denied reply and does nothing
    else. *)
Theorem list_users_denied_without_admin :
  forall strptime upd now w,
    admin_file w = None ->
    get_admin w = None
    /\ list_users strptime upd now w
       = (with_trace (trace w ++ [ReplyText PermissionDenied]) w, Ok tt).
Proof.
  intros strptime upd now w H.
  assert (G : get_admin w = None) by (unfold get_admin; now rewrite H).
  split; [exact G|].
  unfold list_users, bind, get_world. now rewrite G.
Qed.

(** The first [/start] makes its caller the admin; a later one does not. *)
Lemma start_assigns_first_admin upd now w :
  admin_file w = None ->
  get_admin (fst (start upd now w)) = Some (User.id (effective_user upd))
  /\ trace (fst (start upd now w))
     = trace w ++ [ReplyText AdminAssigned; ReplyText Welcome].
Proof.
  intros H. unfold start, bind, get_world. rewrite log_user_data_logged.
  assert (A : admin_file (logged (effective_user upd) now w) = None)
    by now rewrite logged_admin_file.
  assert (G : get_admin (logged (effective_user upd) now w) = None)
    by (unfold get_admin; now rewrite A).
  rewrite G. simpl. unfold get_admin, set_admin; simpl. rewrite A. simpl.
  split; [reflexivity|]. now rewrite logged_trace, <- app_assoc.
Qed.

Lemma start_keeps_admin upd now w a :
  get_admin w = Some a ->
  get_admin (fst (start upd now w)) = Some a
  /\ trace (fst (start upd now w)) = trace w ++ [ReplyText Welcome].
Proof.
  intros H. unfold start, bind, get_world. rewrite log_user_data_logged.
  assert (G : get_admin (logged (effective_user upd) now w) = Some a)
    by (unfold get_admin in *; now rewrite logged_admin_file).
  rewrite G. simpl. split; [exact G|]. now rewrite logged_trace.
Qed.

(** ** The same-day count of [list_users] *)

Lemma date_eqb_eq a b : date_eqb a b = true <-> a = b.
Proof.
  unfold date_eqb. rewrite !andb_true_iff, !Nat.eqb_eq.
  destruct a, b; simpl. split; [intros [[-> ->] ->]|intros [= -> -> ->]]; easy.
Qed.

Lemma count_today_readable strptime today users :
  (forall u, In u users -> strptime (timestamp u) <> None) ->
  count_today strptime today users
  = Ok (length (List.filter (dated strptime today) users)).
Proof.
  induction users as [|u users IH]; intros H; simpl; [reflexivity|].
  rewrite IH by (intros v Hv; apply H; now right).
  unfold dated at 2.
  destruct (strptime (timestamp u)) as [t|] eqn:E.
  - now destruct (date_eqb (dt_date t) today).
  - exfalso. apply (H u); [now left|exact E].
Qed.

Lemma count_today_unreadable strptime today users :
  (exists u, In u users /\ strptime (timestamp u) = None) ->
  count_today strptime today users = Raise ValueError.
Proof.
  induction users as [|u users IH]; intros (v & Hv & E); [easy|]. simpl.
  destruct (strptime (timestamp u)) as [t|] eqn:Eu; [|reflexivity].
  destruct Hv as [->|Hv]; [congruence|]. rewrite IH; [reflexivity|eauto].
Qed.

(** One timestamp that [strptime] refuses, and the admin gets the error
    reply in place of the report. *)
Lemma list_users_unreadable_timestamp strptime upd now w users :
  get_admin w = Some (User.id (effective_user upd)) ->
  users_file w = Some (Entries users) ->
  (exists u, In u users /\ strptime (timestamp u) = None) ->
  list_users strptime upd now w
  = (with_trace (trace w ++ [ReplyText UsersError]) w, Ok tt).
Proof.
  intros G E H. unfold list_users, bind, get_world, try_except. rewrite G, E.
  rewrite bool_decide_eq_true_2 by reflexivity. simpl.
  now rewrite (count_today_unreadable strptime (dt_date now) users H).
Qed.

(** C5: for the admin, on a log whose timestamps all read as times,
    [list_users] reports the whole log, its length, and as same-day count
    the number of records whose stored date is the date of the clock in
    Asia/Tashkent; a record of any other day, the day before among them,
    is not counted. *)
Theorem list_users_counts_today :
  forall strptime upd now w users,
    get_admin w = Some (User.id (effective_user upd)) ->
    users_file w = Some (Entries users) ->
    (forall u, In u users -> strptime (timestamp u) <> None) ->
    list_users strptime upd now w
    = (with_trace
         (trace w
          ++ [ReplyText
                (UsersReport (length users)
                   (length (List.filter (dated strptime (dt_date now)) users))
                   users)]) w,
       Ok tt)
    /\ forall u t, In u users -> strptime (timestamp u) = Some t ->
         (In u (List.filter (dated strptime (dt_date now)) users)
          <-> dt_date t = dt_date now).
Proof.
  intros strptime upd now w users G E H. split.
  - unfold list_users, bind, get_world, try_except. rewrite G, E.
    rewrite bool_decide_eq_true_2 by reflexivity. simpl.
    now rewrite (count_today_readable strptime (dt_date now) users H).
  - intros u t Hu Et. rewrite filter_In. unfold dated. rewrite Et.
    rewrite date_eqb_eq. tauto.
Qed.

(** ** The shortcode is never empty *)

Lemma capture_free_atom a : capture_free (Atom a).
Proof.
  intros [|c s] caps rest caps'; simpl; [easy|].
  destruct (atom_ok a c); [|easy]. now intros [[= _ <-]|[]].
Qed.

Lemma capture_free_seq r1 r2 :
  capture_free r1 -> capture_free r2 -> capture_free (Seq r1 r2).
Proof.
  intros H1 H2 s caps rest caps' H. simpl in H. apply in_flat_map in H.
  destruct H as ([mid cm] & Hm & H). simpl in H.
  rewrite (H2 _ _ _ _ H). exact (H1 _ _ _ _ Hm).
Qed.

Lemma capture_free_alt r1 r2 :
  capture_free r1 -> capture_free r2 -> capture_free (Alt r1 r2).
Proof.
  intros H1 H2 s caps rest caps' H. simpl in H. apply in_app_or in H.
  destruct H; eauto.
Qed.

Lemma capture_free_eps : capture_free Eps.
Proof. now intros s caps rest caps' [[= _ <-]|[]]. Qed.

Lemma seq_after_capture_free r1 r2 s caps m :
  capture_free r1 -> In m (rmatch (Seq r1 r2) s caps) ->
  exists mid, In m (rmatch r2 mid caps).
Proof.
  intros H1 H. simpl in H. apply in_flat_map in H.
  destruct H as ([mid cm] & Hm & H). simpl in H.
  rewrite (H1 _ _ _ _ Hm) in H. eauto.
Qed.

Lemma consumed_app pre rest : consumed (pre ++ rest) rest = pre.
Proof.
  unfold consumed. rewrite List.length_app.
  replace (length pre + length rest - length rest) with (length pre) by lia.
  rewrite firstn_app, Nat.sub_diag, firstn_all. simpl. apply app_nil_r.
Qed.

Lemma rmatch_seq_eps r s caps : rmatch (Seq r Eps) s caps = rmatch r s caps.
Proof.
  simpl. induction (rmatch r s caps) as [|[rest c] l IH]; simpl; [reflexivity|].
  now rewrite IH.
Qed.

(** A group around [a+] captures one character at least. *)
Lemma group_plus_captures n a s caps m :
  In m (rmatch (Seq (Group n (Seq (Plus a) Eps)) Eps) s caps) ->
  exists pre, pre <> [] /\ snd m = (n, pre) :: caps.
Proof.
  rewrite rmatch_seq_eps.
  change (rmatch (Group n (Seq (Plus a) Eps)) s caps)
    with (List.map (fun m => (fst m, (n, consumed s (fst m)) :: snd m))
            (rmatch (Seq (Plus a) Eps) s caps)).
  rewrite rmatch_seq_eps. simpl. rewrite List.map_map. intros H.
  apply in_map_iff in H. destruct H as (rest & <- & H). simpl.
  destruct (plus_rests_suffix _ _ _ H) as (pre & Hp & ->).
  exists pre. now rewrite consumed_app.
Qed.

Lemma re_search_found r s caps :
  re_search r s = Some caps ->
  exists t m, In m (rmatch r t []) /\ snd m = caps.
Proof.
  induction s as [|c s IH]; simpl.
  - destruct (rmatch r [] []) as [|m l] eqn:E; [easy|].
    intros [= <-]. exists [], m. rewrite E. split; [now left|reflexivity].
  - destruct (rmatch r (c :: s) []) as [|m l] eqn:E; [exact IH|].
    intros [= <-]. exists (c :: s), m. rewrite E.
    split; [now left|reflexivity].
Qed.

Ltac solve_capture_free :=
  repeat first [ apply capture_free_atom | apply capture_free_eps
               | apply capture_free_seq | apply capture_free_alt ].

Lemma extract_shortcode_nonempty instagram_post shortcode :
  extract_shortcode instagram_post = Some shortcode -> shortcode <> "".
Proof.
  unfold extract_shortcode.
  destruct (re_search shortcode_re (chars instagram_post)) as [caps|] eqn:E;
    [|easy].
  apply re_search_found in E. destruct E as (t & m & Hm & <-).
  unfold shortcode_re in Hm.
  repeat (apply seq_after_capture_free in Hm;
          [destruct Hm as (? & Hm)|solve [solve_capture_free]]).
  apply group_plus_captures in Hm.
  destruct Hm as ([|c pre] & Hp & ->); [easy|]. simpl.
  now intros [= <-].
Qed.

(** ** [fetch_instagram_data] *)

Lemma fetch_without_shortcode env instagram_post w :
  extract_shortcode instagram_post = None ->
  fetch_instagram_data env instagram_post w = (w, Ok None).
Proof. intros E. unfold fetch_instagram_data. now rewrite E. Qed.

Lemma fetch_with_shortcode env instagram_post shortcode w :
  extract_shortcode instagram_post = Some shortcode ->
  fetch_instagram_data env instagram_post w
  = (with_trace (trace w ++ [FromShortcode shortcode]) w,
     Ok match from_shortcode env shortcode with
        | Ok post => if is_video post then video_url post else Some (url post)
        | Raise _ => None
        end).
Proof.
  intros E. unfold fetch_instagram_data. rewrite E.
  destruct shortcode as [|c shortcode];
    [now apply extract_shortcode_nonempty in E|].
  unfold try_except, bind, emit, lift, ret.
  now destruct (from_shortcode env (String c shortcode)).
Qed.

(** C6: without a shortcode in its input [fetch_instagram_data] returns
    [None] and asks the provider nothing; with one it looks the post up and
    returns the video URL of a video, the image URL of any other post, and
    [None] when the lookup raises; it returns in every case, and raises in
    none. *)
Theorem fetch_instagram_data_total :
  forall env instagram_post w,
    (extract_shortcode instagram_post = None ->
     fetch_instagram_data env instagram_post w = (w, Ok None))
    /\ (forall shortcode,
          extract_shortcode instagram_post = Some shortcode ->
          fetch_instagram_data env instagram_post w
          = (with_trace (trace w ++ [FromShortcode shortcode]) w,
             Ok match from_shortcode env shortcode with
                | Ok post =>
                    if is_video post then video_url post else Some (url post)
                | Raise _ => None
                end))
    /\ exists w' media_url,
         fetch_instagram_data env instagram_post w = (w', Ok media_url).
Proof.
  intros env instagram_post w.
  split; [apply fetch_without_shortcode|].
  split; [intros shortcode; apply fetch_with_shortcode|].
  destruct (extract_shortcode instagram_post) as [shortcode|] eqn:E.
  - rewrite (fetch_with_shortcode env _ shortcode w E). eauto.
  - rewrite (fetch_without_shortcode env _ w E). eauto.
Qed.

(** ** The relay *)

(** The [finally] block: the relay's file is gone on every way out. *)
Lemma relay_cleans_up env media_url chat w :
  temp_files (fst (relay env media_url chat w))
    !! temp_name media_url chat = None.
Proof.
  unfold relay, try_finally.
  match goal with |- context [try_except ?b ?h w] =>
    destruct (try_except b h w) as [w1 r] end.
  unfold bind, exists_file, when.
  destruct (bool_decide (is_Some (temp_files w1 !! temp_name media_url chat)))
    eqn:E; simpl.
  - apply lookup_delete_eq.
  - apply bool_decide_eq_false in E. now apply eq_None_not_Some.
Qed.

Lemma relay_temp_files env media_url chat w :
  temp_files (fst (relay env media_url chat w))
  = delete (temp_name media_url chat) (temp_files w).
Proof.
  apply map_eq. intros name.
  destruct (decide (name = temp_name media_url chat)) as [->|N].
  - rewrite lookup_delete_eq. apply relay_cleans_up.
  - rewrite lookup_delete_ne by congruence.
    now apply (relay_touches_only env media_url chat w).
Qed.

(** C7: whatever the outside does during the relay (the download or the
    upload raising at any step, the reports to the chat failing or not),
    the relay's temp file is not there afterwards, and every other file is
    as it was. *)
Theorem relay_removes_temp_file :
  forall env media_url chat w,
    temp_files (fst (relay env media_url chat w))
      !! temp_name media_url chat = None
    /\ forall other, other <> temp_name media_url chat ->
         temp_files (fst (relay env media_url chat w)) !! other
         = temp_files w !! other.
Proof.
  intros env media_url chat w. split; [apply relay_cleans_up|].
  apply (relay_touches_only env media_url chat w).
Qed.

(** So it is for the whole of [download]: no file is there afterwards that
    was not there before. *)
Lemma download_leaves_no_file env upd now w name bytes :
  temp_files (fst (download env upd now w)) !! name = Some bytes ->
  temp_files w !! name = Some bytes.
Proof.
  unfold download, bind. rewrite log_user_data_logged.
  destruct (is_valid_instagram_url (strip (text upd))); simpl;
    [|now rewrite logged_temp_files].
  match goal with |- context [fetch_instagram_data env ?p ?w0] =>
    destruct (extract_shortcode p) as [shortcode|] eqn:E;
    [rewrite (fetch_with_shortcode env p shortcode w0 E)
    |rewrite (fetch_without_shortcode env p w0 E)]
  end.
  - destruct (match from_shortcode env shortcode with
              | Ok post =>
                  if is_video post then video_url post else Some (url post)
              | Raise _ => None
              end) as [[|c media_url]|]; simpl;
      try now rewrite logged_temp_files.
    rewrite relay_temp_files; simpl. rewrite logged_temp_files.
    intros H. apply lookup_delete_Some in H. tauto.
  - simpl. now rewrite logged_temp_files.
Qed.

Lemma chars_app a b : chars (a ++ b) = chars a ++ chars b.
Proof. induction a as [|c a IH]; simpl; [reflexivity|]. now f_equal. Qed.

Lemma ends_with_mp4 a b :
  ends_with (chars ".mp4") (chars (a ++ b ++ ".mp4")) = true.
Proof.
  unfold ends_with. rewrite !chars_app, !rev_app_distr. reflexivity.
Qed.

Lemma ends_with_jpg a b :
  ends_with (chars ".mp4") (chars (a ++ b ++ ".jpg")) = false.
Proof.
  unfold ends_with. rewrite !chars_app, !rev_app_distr. reflexivity.
Qed.

Lemma write_all_ok env name cs w :
  write_ok env = true ->
  exists w', write_all env name cs w = (w', Ok tt) /\ trace w' = trace w.
Proof.
  intros H. revert w. induction cs as [|c cs IH]; intros w; simpl.
  - now exists w.
  - unfold bind, write. rewrite H. simpl.
    match goal with |- context [write_all env name cs ?w0] =>
      destruct (IH w0) as (w' & -> & T) end.
    exists w'. split; [reflexivity|exact T].
Qed.

(** C8: once the media is downloaded, the relay uploads it as a video from
    [temp_<chat_id>.mp4] when the URL holds [video], and as a photo from
    [temp_<chat_id>.jpg] when it does not, with the one fixed caption; what
    follows the upload is the removal of the progress message, or the
    failure report. *)
Theorem relay_kind_follows_video_marker :
  forall env media_url chat w resp,
    requests_get env media_url = Ok resp ->
    open_ok env = true ->
    write_ok env = true ->
    broken resp = false ->
    trace (fst (relay env media_url chat w))
    = trace w
      ++ [RequestsGet media_url; upload_of media_url chat]
      ++ (if send_media_ok env
          then DeleteProgress
               :: (if delete_progress_ok env then []
                   else [EditProgress SendFailed])
          else [EditProgress SendFailed]).
Proof.
  intros env media_url chat w resp Hget Hopen Hwrite Hbroken.
  unfold relay, try_finally, try_except, upload_of, temp_name.
  unfold bind at 1 2. unfold emit at 1. unfold bind at 1, lift. rewrite Hget.
  unfold bind at 1, open_wb. rewrite Hopen. unfold modify at 1.
  unfold bind at 1.
  match goal with |- context [write_all env ?n ?cs ?w0] =>
    destruct (write_all_ok env n cs w0 Hwrite) as (w1 & -> & T1) end.
  simpl in T1. rewrite Hbroken. unfold bind at 1, ret at 1.
  unfold bind at 1.
  destruct (contains (chars "video") (chars media_url)).
  - rewrite ends_with_mp4. unfold chat_call, bind, emit, exists_file, when.
    destruct (send_media_ok env), (delete_progress_ok env),
      (edit_progress_ok env); simpl;
      repeat match goal with
             | |- context [bool_decide ?P] => destruct (bool_decide P)
             end; simpl; rewrite T1, <- ?app_assoc; reflexivity.
  - rewrite ends_with_jpg. unfold chat_call, bind, emit, exists_file, when.
    destruct (send_media_ok env), (delete_progress_ok env),
      (edit_progress_ok env); simpl;
      repeat match goal with
             | |- context [bool_decide ?P] => destruct (bool_decide P)
             end; simpl; rewrite T1, <- ?app_assoc; reflexivity.
Qed.

(** * The properties on the sample run *)

Lemma log_user_data_twice_no_duplicate_witness :
  length (entries (fst (log_user_data alice noon running)))
  = length (entries running).
Proof.
  refine (proj1 (proj1 (log_user_data_twice_no_duplicate alice noon running _))).
  exists alice_entry. split; [right; left; reflexivity|reflexivity].
Defined.

Lemma log_user_data_changes_timestamp_only_witness :
  log_user_data alice noon running
  = (with_users_file
       (Some (Entries
          [bob_entry;
           {| user_id := 7%Z; username := Some "al"; first_name := "Al";
              timestamp := strftime noon |}])) running,
     Ok tt).
Proof.
  apply (log_user_data_changes_timestamp_only
           alice noon running [bob_entry] alice_entry []).
  - reflexivity.
  - reflexivity.
  - intros u [<-|[]]. simpl. lia.
Defined.

Lemma set_admin_first_writer_wins_witness :
  set_admin 9%Z running = running
  /\ get_admin (set_admin_each [8; 9]%Z (set_admin 7%Z fresh)) = Some 7%Z.
Proof.
  split.
  - apply (proj1 (set_admin_first_writer_wins running) 9%Z). simpl. congruence.
  - apply (proj2 (set_admin_first_writer_wins fresh) 7%Z [8; 9]%Z). reflexivity.
Defined.

Lemma list_users_denied_without_admin_witness :
  get_admin fresh = None
  /\ list_users strptime (from_alice "/users") noon fresh
     = (with_trace [ReplyText PermissionDenied] fresh, Ok tt).
Proof.
  apply (list_users_denied_without_admin
           strptime (from_alice "/users") noon fresh).
  reflexivity.
Defined.

Lemma list_users_counts_today_witness :
  list_users strptime (from_alice "/users") noon running
  = (with_trace
       [ReplyText (UsersReport 2 1 [bob_entry; alice_entry])] running,
     Ok tt).
Proof.
  refine (proj1 (list_users_counts_today
                   strptime (from_alice "/users") noon running
                   [bob_entry; alice_entry] _ _ _)).
  - reflexivity.
  - reflexivity.
  - intros u [<-|[<-|[]]]; vm_compute; discriminate.
Defined.

Lemma fetch_instagram_data_total_witness :
  fetch_instagram_data online "no link here" fresh = (fresh, Ok None)
  /\ fetch_instagram_data online "https://instagram\.com/reel/Cx1/" fresh
     = (with_trace [FromShortcode "Cx1"] fresh,
        Ok (Some "https://cdn/video/1")).
Proof.
  split.
  - apply (proj1 (fetch_instagram_data_total online "no link here" fresh)).
    vm_compute. reflexivity.
  - apply (proj1 (proj2 (fetch_instagram_data_total
             online "https://instagram\.com/reel/Cx1/" fresh)) "Cx1").
    vm_compute. reflexivity.
Defined.

Lemma relay_removes_temp_file_witness :
  temp_files (fst (relay online "https://cdn/1.jpg" 5%Z running))
    !! "temp_5.jpg" = None
  /\ temp_files (fst (relay online "https://cdn/1.jpg" 5%Z running))
       !! "temp_6.jpg" = temp_files running !! "temp_6.jpg".
Proof.
  split.
  - apply (proj1 (relay_removes_temp_file
                    online "https://cdn/1.jpg" 5%Z running)).
  - apply (proj2 (relay_removes_temp_file
                    online "https://cdn/1.jpg" 5%Z running)).
    vm_compute. discriminate.
Defined.

Lemma relay_kind_follows_video_marker_witness :
  trace (fst (relay online "https://cdn/video/1" 42%Z fresh))
  = [RequestsGet "https://cdn/video/1"; ReplyVideo "temp_42.mp4" caption;
     DeleteProgress].
Proof.
  apply (relay_kind_follows_video_marker
           online "https://cdn/video/1" 42%Z fresh
           {| chunks := [chars "ab"; chars "c"]; broken := false |});
    reflexivity.
Defined.

(** * Further properties *)

(** ** What the two patterns accept *)

Lemma in_seq_chr x r s caps m :
  In m (rmatch (Seq (Atom (Chr x)) r) s caps)
  <-> exists s', s = x :: s' /\ In m (rmatch r s' caps).
Proof.
  simpl. destruct s as [|c s]; simpl.
  - split; [easy|]. now intros (s' & E & _).
  - destruct (Ascii.eqb_spec c x) as [->|N]; simpl.
    + rewrite app_nil_r. split; [eauto|]. now intros (s' & [= <-] & H).
    + split; [easy|]. intros (s' & [= E _] & _). congruence.
Qed.

Lemma in_seq_dot r s caps m :
  In m (rmatch (Seq (Atom Dot) r) s caps)
  <-> exists c s', s = c :: s' /\ c <> newline /\ In m (rmatch r s' caps).
Proof.
  simpl. destruct s as [|c s]; simpl.
  - split; [easy|]. now intros (c & s' & E & _).
  - destruct (Ascii.eqb_spec c "010") as [->|N]; simpl.
    + split; [easy|]. intros (c & s' & [= <- _] & N & _). now apply N.
    + rewrite app_nil_r. split; [intros H; now exists c, s|].
      now intros (c' & s' & [= <- <-] & _ & H).
Qed.

Lemma in_seq_eps r s caps m :
  In m (rmatch (Seq Eps r) s caps) <-> In m (rmatch r s caps).
Proof. simpl. now rewrite app_nil_r. Qed.

Lemma in_seq_assoc r1 r2 r3 s caps m :
  In m (rmatch (Seq (Seq r1 r2) r3) s caps)
  <-> In m (rmatch (Seq r1 (Seq r2 r3)) s caps).
Proof.
  simpl. rewrite !in_flat_map. split.
  - intros (x & Hx & H). apply in_flat_map in Hx. destruct Hx as (y & Hy & Hx).
    exists y. split; [exact Hy|]. apply in_flat_map. eauto.
  - intros (y & Hy & H). apply in_flat_map in H. destruct H as (x & Hx & H).
    exists x. split; [|exact H]. apply in_flat_map. eauto.
Qed.

Lemma in_seq_alt r1 r2 r s caps m :
  In m (rmatch (Seq (Alt r1 r2) r) s caps)
  <-> In m (rmatch (Seq r1 r) s caps) \/ In m (rmatch (Seq r2 r) s caps).
Proof. simpl. rewrite flat_map_app, in_app_iff. reflexivity. Qed.

Lemma in_seq_opt r1 r s caps m :
  In m (rmatch (Seq (Opt r1) r) s caps)
  <-> In m (rmatch (Seq r1 r) s caps) \/ In m (rmatch r s caps).
Proof.
  simpl. rewrite flat_map_app, in_app_iff. simpl. now rewrite app_nil_r.
Qed.

(** A group changes the captures only: behind it the match goes on at the
    same place, with some captures. *)
Lemma in_seq_group n r1 r s caps m :
  In m (rmatch (Seq (Group n r1) r) s caps)
  <-> exists mid cm, In (mid, cm) (rmatch r1 s caps)
                     /\ In m (rmatch r mid ((n, consumed s mid) :: cm)).
Proof.
  simpl. rewrite in_flat_map. split.
  - intros (x & Hx & H). apply in_map_iff in Hx.
    destruct Hx as ([mid cm] & <- & Hx). simpl in H. eauto.
  - intros (mid & cm & Hx & H).
    exists (mid, (n, consumed s mid) :: cm). split; [|exact H].
    apply in_map_iff. now exists (mid, cm).
Qed.

Lemma in_eps s caps m : In m (rmatch Eps s caps) <-> m = (s, caps).
Proof. simpl. split; [now intros [<-|[]]|intros ->; now left]. Qed.

Lemma in_alt r1 r2 s caps m :
  In m (rmatch (Alt r1 r2) s caps)
  <-> In m (rmatch r1 s caps) \/ In m (rmatch r2 s caps).
Proof. simpl. apply in_app_iff. Qed.

Ltac invert_matches :=
  repeat match goal with
  | H : In _ (rmatch (Seq (Atom (Chr _)) _) _ _) |- _ =>
      apply in_seq_chr in H; destruct H as (? & -> & H)
  | H : In _ (rmatch (Seq (Atom Dot) _) _ _) |- _ =>
      apply in_seq_dot in H; destruct H as (? & ? & -> & ? & H)
  | H : In _ (rmatch (Seq Eps _) _ _) |- _ => apply in_seq_eps in H
  | H : In _ (rmatch (Seq (Opt _) _) _ _) |- _ =>
      apply in_seq_opt in H; destruct H as [H|H]
  | H : In _ (rmatch (Seq (Alt _ _) _) _ _) |- _ =>
      apply in_seq_alt in H; destruct H as [H|H]
  | H : In _ (rmatch (Seq (Group _ _) _) _ _) |- _ =>
      apply in_seq_group in H; destruct H as (? & ? & ? & H)
  | H : In _ (rmatch (Seq (Seq _ _) _) _ _) |- _ => apply in_seq_assoc in H
  | H : In _ (rmatch (Alt _ _) _ _) |- _ =>
      apply in_alt in H; destruct H as [H|H]
  | H : In (_, _) (rmatch Eps _ _) |- _ =>
      apply in_eps in H; injection H as ? ?; subst
  end.

Ltac build_match :=
  lazymatch goal with
  | |- In _ (rmatch (Seq (Atom (Chr _)) _) _ _) =>
      apply in_seq_chr; eexists; split; [reflexivity|]; build_match
  | |- In _ (rmatch (Seq (Atom Dot) _) _ _) =>
      apply in_seq_dot; do 2 eexists;
      split; [reflexivity|split; [eassumption|]]; build_match
  | |- In _ (rmatch (Seq Eps _) _ _) => apply in_seq_eps; build_match
  | |- In _ (rmatch (Seq (Opt _) _) _ _) =>
      apply in_seq_opt; first [ solve [left; build_match] | right; build_match ]
  | |- In _ (rmatch (Seq (Alt _ _) _) _ _) =>
      apply in_seq_alt; first [ solve [left; build_match] | right; build_match ]
  | |- In _ (rmatch (Seq (Group _ _) _) _ _) =>
      apply in_seq_group; do 2 eexists; split; build_match
  | |- In _ (rmatch (Seq (Seq _ _) _) _ _) => apply in_seq_assoc; build_match
  | |- In _ (rmatch (Alt _ _) _ _) =>
      apply in_alt; first [ solve [left; build_match] | right; build_match ]
  | |- In _ (rmatch Eps _ _) => apply in_eps; reflexivity
  end.

Ltac give_shape secure www kind :=
  exists secure, www; eexists; eexists; exists (chars kind); eexists;
  split; [reflexivity|];
  repeat split; try assumption; try discriminate;
  unfold is_kind; tauto.

Lemma valid_url_re_shape l :
  (exists m, In m (rmatch valid_url_re l []))
  <-> exists secure www d c kind rest,
        l = url_head secure www d c kind ++ rest
        /\ (www = true -> d <> newline) /\ c <> newline /\ is_kind kind.
Proof.
  split.
  - intros (m & H). unfold valid_url_re in H. invert_matches.
    all: match goal with H : In _ (rmatch Eps _ _) |- _ =>
           apply in_eps in H end.
    all: first
      [ give_shape true true "p" | give_shape true true "reel"
      | give_shape true true "tv" | give_shape false true "p"
      | give_shape false true "reel" | give_shape false true "tv"
      | idtac ].
    all: first
      [ exists true, false, "a"%char; eexists; exists (chars "p"); eexists;
        split; [reflexivity|];
        repeat split; try assumption; try discriminate; unfold is_kind; tauto
      | exists true, false, "a"%char; eexists; exists (chars "reel"); eexists;
        split; [reflexivity|];
        repeat split; try assumption; try discriminate; unfold is_kind; tauto
      | exists true, false, "a"%char; eexists; exists (chars "tv"); eexists;
        split; [reflexivity|];
        repeat split; try assumption; try discriminate; unfold is_kind; tauto
      | exists false, false, "a"%char; eexists; exists (chars "p"); eexists;
        split; [reflexivity|];
        repeat split; try assumption; try discriminate; unfold is_kind; tauto
      | exists false, false, "a"%char; eexists; exists (chars "reel"); eexists;
        split; [reflexivity|];
        repeat split; try assumption; try discriminate; unfold is_kind; tauto
      | exists false, false, "a"%char; eexists; exists (chars "tv"); eexists;
        split; [reflexivity|];
        repeat split; try assumption; try discriminate; unfold is_kind; tauto ].
  - intros (secure & www & d & c & kind & rest & -> & Hd & Hc & Hk).
    unfold is_kind in Hk. unfold valid_url_re.
    destruct Hk as [E | [E | E]]; subst kind; destruct secure, www;
      try specialize (Hd eq_refl); eexists; build_match.
Qed.

Lemma is_valid_iff_match url :
  is_valid_instagram_url url = true
  <-> exists m, In m (rmatch valid_url_re (chars url) []).
Proof.
  unfold is_valid_instagram_url, re_match.
  destruct (rmatch valid_url_re (chars url) []) as [|m l]; simpl.
  - split; [easy|]. now intros (m & []).
  - split; [|reflexivity]. intros _. exists m. now left.
Qed.


(** ** The shortcode *)

Lemma rmatch_seq_chr_hit x r s caps :
  rmatch (Seq (Atom (Chr x)) r) (x :: s) caps = rmatch r s caps.
Proof. simpl. rewrite Ascii.eqb_refl. simpl. apply app_nil_r. Qed.

Lemma rmatch_seq_chr_miss x c r s caps :
  c <> x -> rmatch (Seq (Atom (Chr x)) r) (c :: s) caps = [].
Proof. intros N. simpl. now rewrite (proj2 (Ascii.eqb_neq c x) N). Qed.

Lemma rmatch_seq_dot_hit c r s caps :
  c <> newline -> rmatch (Seq (Atom Dot) r) (c :: s) caps = rmatch r s caps.
Proof.
  intros N. simpl. rewrite (proj2 (Ascii.eqb_neq c "010") N). simpl.
  apply app_nil_r.
Qed.

Lemma rmatch_seq_alt r1 r2 r s caps :
  rmatch (Seq (Alt r1 r2) r) s caps
  = rmatch (Seq r1 r) s caps ++ rmatch (Seq r2 r) s caps.
Proof. simpl. apply flat_map_app. Qed.

Lemma rmatch_seq_assoc r1 r2 r3 s caps :
  rmatch (Seq (Seq r1 r2) r3) s caps = rmatch (Seq r1 (Seq r2 r3)) s caps.
Proof.
  simpl. induction (rmatch r1 s caps) as [|x l IH]; simpl; [reflexivity|].
  now rewrite flat_map_app, IH.
Qed.

Lemma rmatch_seq_eps_l r s caps : rmatch (Seq Eps r) s caps = rmatch r s caps.
Proof. simpl. apply app_nil_r. Qed.

Lemma rmatch_group_plus n a s caps :
  rmatch (Seq (Group n (Seq (Plus a) Eps)) Eps) s caps
  = List.map (fun rest => (rest, (n, consumed s rest) :: caps))
             (plus_rests a s).
Proof.
  rewrite rmatch_seq_eps.
  change (rmatch (Group n (Seq (Plus a) Eps)) s caps)
    with (List.map (fun m => (fst m, (n, consumed s (fst m)) :: snd m))
            (rmatch (Seq (Plus a) Eps) s caps)).
  rewrite rmatch_seq_eps. simpl. now rewrite List.map_map.
Qed.

(** The longest run comes first: all of [run], when what follows cannot
    be taken. *)
Lemma plus_rests_longest a run tail :
  run <> [] ->
  Forall (fun c => atom_ok a c = true) run ->
  plus_rests a tail = [] ->
  exists more, plus_rests a (run ++ tail) = tail :: more.
Proof.
  induction run as [|c run IH]; intros N F T; [easy|].
  inversion F as [|? ? Hc F']; subst. simpl. rewrite Hc.
  destruct run as [|c' run].
  - simpl. rewrite T. now exists [].
  - destruct IH as (more & E); [easy|exact F'|exact T|].
    rewrite E. now exists (more ++ [(c' :: run) ++ tail]).
Qed.

Lemma plus_rests_all_ok a s rest :
  In rest (plus_rests a s) ->
  exists run, run <> [] /\ s = run ++ rest
              /\ Forall (fun c => atom_ok a c = true) run.
Proof.
  revert rest. induction s as [|c s IH]; simpl; intros rest H; [easy|].
  destruct (atom_ok a c) eqn:Hc; [|easy].
  apply in_app_or in H. destruct H as [H|[<-|[]]].
  - destruct (IH _ H) as (run & _ & -> & F). exists (c :: run).
    repeat split; [easy|]. now constructor.
  - exists [c]. repeat split; [easy|]. now constructor.
Qed.

Lemma re_search_skip r c s :
  rmatch r (c :: s) [] = [] -> re_search r (c :: s) = re_search r s.
Proof. intros E. simpl. now rewrite E. Qed.

Lemma re_search_here r s m more :
  rmatch r s [] = m :: more -> re_search r s = Some (snd m).
Proof. intros E. destruct s; simpl; now rewrite E. Qed.

(** The pattern starts with [instagram]: it matches at no place where the
    text has another character, or an [i] that one more [i] follows. *)
Lemma shortcode_re_miss c s :
  c <> "i"%char \/ (exists s', s = "i"%char :: s') ->
  rmatch shortcode_re (c :: s) [] = [].
Proof.
  unfold shortcode_re. intros [N|(s' & ->)].
  - now apply rmatch_seq_chr_miss.
  - destruct (ascii_dec c "i") as [->|N];
      [|now apply rmatch_seq_chr_miss].
    rewrite rmatch_seq_chr_hit. now apply rmatch_seq_chr_miss.
Qed.

Lemma plus_rests_stop tail :
  match tail with [] => True | x :: _ => is_stop x = true end ->
  plus_rests (NoneOf (chars "/?#&")) tail = [].
Proof.
  destruct tail as [|x tail]; [reflexivity|]. cbn [plus_rests atom_ok].
  unfold is_stop, is_one_of. now intros ->.
Qed.

Ltac step_match :=
  repeat first
    [ rewrite rmatch_seq_chr_hit
    | rewrite rmatch_seq_dot_hit by assumption
    | rewrite rmatch_seq_chr_miss by discriminate
    | rewrite rmatch_seq_alt
    | rewrite rmatch_seq_assoc
    | rewrite rmatch_seq_eps_l
    | rewrite app_nil_l
    | rewrite app_nil_r ].

(** At [instagram], behind the backslash, the character, [com/], the kind
    and the slash, the first match takes all of [id]. *)
Lemma shortcode_re_here c kind id tail :
  c <> newline -> is_kind kind ->
  id <> [] -> Forall (fun x => is_stop x = false) id ->
  match tail with [] => True | x :: _ => is_stop x = true end ->
  exists more,
    rmatch shortcode_re
      (chars "instagram\" ++ [c] ++ chars "com/" ++ kind ++ chars "/"
       ++ id ++ tail) []
    = (tail, [(1, id)]) :: more.
Proof.
  intros Hc Hk Hid Hok Htail.
  destruct (plus_rests_longest (NoneOf (chars "/?#&")) id tail Hid)
    as (more & E).
  { eapply List.Forall_impl; [|exact Hok]. intros x Hx. cbn [atom_ok].
    unfold is_stop, is_one_of in Hx. now rewrite Hx. }
  { now apply plus_rests_stop. }
  unfold shortcode_re. unfold is_kind in Hk.
  destruct Hk as [K | [K | K]]; subst kind;
    cbn [chars list_ascii_of_string app]; step_match;
    rewrite rmatch_group_plus; change ["/"; "?"; "#"; "&"]%char
      with (chars "/?#&"); rewrite E; simpl; rewrite consumed_app;
    eauto.
Qed.

Lemma url_head_split secure www d c kind rest :
  url_head secure www d c kind ++ rest
  = (chars "http" ++ (if secure then chars "s" else []) ++ chars "://"
     ++ (if www then chars "www\" ++ [d] else []))
    ++ (chars "instagram\" ++ [c] ++ chars "com/" ++ kind ++ chars "/"
        ++ rest).
Proof. unfold url_head. now rewrite <- !app_assoc. Qed.

Lemma shortcode_search secure www d c kind id tail :
  c <> newline -> is_kind kind ->
  id <> [] -> Forall (fun x => is_stop x = false) id ->
  match tail with [] => True | x :: _ => is_stop x = true end ->
  re_search shortcode_re (url_head secure www d c kind ++ id ++ tail)
  = Some [(1, id)].
Proof.
  intros Hc Hk Hid Hok Htail.
  destruct (shortcode_re_here c kind id tail Hc Hk Hid Hok Htail)
    as (more & E).
  rewrite url_head_split.
  set (core := chars "instagram\" ++ [c] ++ chars "com/" ++ kind
               ++ chars "/" ++ id ++ tail) in *.
  destruct secure, www; cbn [chars list_ascii_of_string app];
    repeat (rewrite re_search_skip
              by (apply shortcode_re_miss;
                  first [ left; discriminate
                        | right; eexists; reflexivity ]));
    now rewrite (re_search_here _ _ _ _ E).
Qed.

(** X2: on a text of the shape that the URL check accepts, followed by a
    segment without [/], [?], [#] and [&] and then by nothing or by one of
    these four, [extract_shortcode] returns exactly the segment, and the
    URL check passes. *)
Theorem extract_shortcode_segment :
  forall text secure www d c kind id tail,
    chars text = url_head secure www d c kind ++ id ++ tail ->
    (www = true -> d <> newline) -> c <> newline -> is_kind kind ->
    id <> [] -> Forall (fun x => is_stop x = false) id ->
    match tail with [] => True | x :: _ => is_stop x = true end ->
    is_valid_instagram_url text = true
    /\ extract_shortcode text = Some (string_of_list_ascii id).
Proof.
  intros text secure www d c kind id tail E Hd Hc Hk Hid Hok Htail. split.
  - apply is_valid_iff_match. rewrite E. apply valid_url_re_shape.
    exists secure, www, d, c, kind, (id ++ tail). auto.
  - unfold extract_shortcode. rewrite E.
    now rewrite (shortcode_search secure www d c kind id tail).
Qed.

Lemma group_plus_run n a s caps m :
  In m (rmatch (Seq (Group n (Seq (Plus a) Eps)) Eps) s caps) ->
  exists run, run <> [] /\ Forall (fun c => atom_ok a c = true) run
              /\ snd m = (n, run) :: caps.
Proof.
  rewrite rmatch_group_plus. intros H. apply in_map_iff in H.
  destruct H as (rest & <- & H). simpl.
  destruct (plus_rests_all_ok _ _ _ H) as (run & Hr & -> & F).
  exists run. now rewrite consumed_app.
Qed.

(** X3: whatever the text, a shortcode that [extract_shortcode] returns is
    not empty and holds none of [/], [?], [#] and [&]. *)
Theorem extract_shortcode_clean :
  forall instagram_post shortcode,
    extract_shortcode instagram_post = Some shortcode ->
    shortcode <> ""
    /\ Forall (fun x => is_stop x = false) (chars shortcode).
Proof.
  intros instagram_post shortcode. unfold extract_shortcode.
  destruct (re_search shortcode_re (chars instagram_post)) as [caps|] eqn:E;
    [|easy].
  apply re_search_found in E. destruct E as (t & m & Hm & <-).
  unfold shortcode_re in Hm.
  repeat (apply seq_after_capture_free in Hm;
          [destruct Hm as (? & Hm)|solve [solve_capture_free]]).
  apply group_plus_run in Hm. destruct Hm as (run & Hr & F & ->). simpl.
  intros [= <-]. split.
  - destruct run; [easy|discriminate].
  - unfold chars. rewrite list_ascii_of_string_of_list_ascii.
    eapply List.Forall_impl; [|exact F]. intros ch Hch. cbn [atom_ok] in Hch.
    unfold is_stop, is_one_of. now apply negb_true_iff in Hch.
Qed.

Lemma in_lstrip x l : In x (lstrip l) -> In x l.
Proof.
  induction l as [|c l IH]; simpl; [easy|].
  destruct (is_space c); [intros H; right; now apply IH|easy].
Qed.

Lemma in_strip x text : In x (chars (strip text)) -> In x (chars text).
Proof.
  unfold strip, chars. rewrite list_ascii_of_string_of_list_ascii.
  intros H. apply in_rev, in_lstrip, in_rev, in_lstrip in H. exact H.
Qed.

(** X4: to every message without a backslash, which is every link copied
    from a browser or from the application, [download] answers that the URL
    is invalid: it records the user, sends this one reply, asks the provider
    nothing and leaves the temp files alone. *)
Theorem download_rejects_without_backslash :
  forall env upd now w,
    ~ In "\"%char (chars (text upd)) ->
    download env upd now w
    = (with_trace
         (trace (logged (effective_user upd) now w) ++ [ReplyText InvalidUrl])
         (logged (effective_user upd) now w),
       Ok tt).
Proof.
  intros env upd now w H. apply download_rejects.
  unfold is_valid_instagram_url.
  rewrite (re_match_needs "\" valid_url_re (chars (strip (text upd))));
    [reflexivity|apply valid_url_re_needs_backslash|].
  intros Hin. apply H. now apply in_strip.
Qed.

(** ** More on the user activity log *)

Lemma entries_logged_entry_of user now w :
  users_file w <> Some NotJson ->
  users_file (logged user now w)
  = Some (Entries (refresh_or_append (entry_of user now) (entries w))).
Proof.
  unfold logged, entries, entry_of.
  destruct (users_file w) as [[users|]|]; easy.
Qed.

(** X5: a user whose identifier the log does not hold, or who comes when
    there is no log file yet, is appended at the end of the log, with the
    identifier, handle and name of the caller and the time of the call;
    nothing else of the log changes. *)
Theorem log_user_data_first_contact :
  forall user now w,
    users_file w <> Some NotJson ->
    (forall u, In u (entries w) -> user_id u <> User.id user) ->
    log_user_data user now w
    = (with_users_file
         (Some (Entries
            (entries w
             ++ [{| user_id := User.id user; username := User.username user;
                    first_name := User.first_name user;
                    timestamp := strftime now |}]))) w,
       Ok tt).
Proof.
  intros user now w Hr Hnew. rewrite log_user_data_logged. f_equal.
  unfold logged, entries in *.
  destruct (users_file w) as [[users|]|]; [|easy|reflexivity].
  now rewrite refresh_absent.
Qed.

(** X6: [log_user_data] never raises and touches nothing but [users.log]:
    the admin file, the temp files and the replies are as before; a log that
    [json.load] refuses is left exactly as it is. *)
Theorem log_user_data_best_effort :
  forall user now w,
    exists w',
      log_user_data user now w = (w', Ok tt)
      /\ admin_file w' = admin_file w
      /\ temp_files w' = temp_files w
      /\ trace w' = trace w
      /\ (users_file w = Some NotJson -> w' = w).
Proof.
  intros user now w. exists (logged user now w).
  rewrite log_user_data_logged, logged_admin_file, logged_temp_files,
    logged_trace.
  repeat split. apply logged_unreadable.
Qed.

Lemma refresh_ids_absent new users :
  (forall u, In u users -> user_id u <> user_id new) ->
  List.map user_id (refresh_or_append new users)
  = List.map user_id users ++ [user_id new].
Proof. intros H. now rewrite refresh_absent, List.map_app. Qed.

Lemma known_or_new i users :
  (exists u, In u users /\ user_id u = i)
  \/ (forall u, In u users -> user_id u <> i).
Proof.
  induction users as [|u users [(v & Hv & E)|IH]].
  - now right.
  - left. exists v. split; [now right|exact E].
  - destruct (Z.eq_dec (user_id u) i) as [E|N].
    + left. exists u. split; [now left|exact E].
    + right. intros v [<-|Hv]; auto.
Qed.

(** X7: a log in which no identifier occurs twice stays so under
    [log_user_data], whoever calls. *)
Theorem log_user_data_keeps_ids_unique :
  forall user now w,
    NoDup (List.map user_id (entries w)) ->
    NoDup (List.map user_id (entries (fst (log_user_data user now w)))).
Proof.
  intros user now w H. rewrite log_user_data_logged. cbn [fst].
  assert (D : users_file w = Some NotJson \/ users_file w <> Some NotJson)
    by (destruct (users_file w) as [[|]|]; [right|left|right]; easy).
  destruct D as [E|Hr]; [now rewrite (logged_unreadable user now w E)|].
  rewrite entries_logged_readable by exact Hr.
  set (new := {| user_id := User.id user |}).
  destruct (known_or_new (user_id new) (entries w)) as [K|N].
  - now rewrite refresh_ids.
  - rewrite refresh_ids_absent by exact N.
    apply NoDup_app. repeat split.
    + exact H.
    + intros i Hi Hi'. apply list_elem_of_In in Hi, Hi'.
      destruct Hi' as [<-|[]]. apply in_map_iff in Hi.
      destruct Hi as (u & E & Hu). now apply (N u).
    + apply NoDup_singleton.
Qed.

Lemma refresh_keeps_places new users : forall i u,
  nth_error users i = Some u ->
  exists u',
    nth_error (refresh_or_append new users) i = Some u'
    /\ user_id u' = user_id u /\ username u' = username u
    /\ first_name u' = first_name u
    /\ (user_id u <> user_id new -> u' = u).
Proof.
  induction users as [|v users IH]; intros i u H; [now destruct i|].
  simpl. destruct (Z.eqb_spec (user_id v) (user_id new)) as [E|N].
  - destruct i as [|i]; simpl in *.
    + injection H as <-. exists (set_timestamp (timestamp new) v).
      repeat split. intros N. congruence.
    + exists u. now repeat split.
  - destruct i as [|i]; simpl in *.
    + injection H as <-. exists v. now repeat split.
    + now apply IH.
Qed.

(** X8: [log_user_data] loses no record and moves none: each record of the
    log is found at its place afterwards with the identifier, handle and
    name that it had, and a record of another user is untouched. A changed
    handle or name of a known user is never written to the log. *)
Theorem log_user_data_keeps_records :
  forall user now w i u,
    nth_error (entries w) i = Some u ->
    exists u',
      nth_error (entries (fst (log_user_data user now w))) i = Some u'
      /\ user_id u' = user_id u /\ username u' = username u
      /\ first_name u' = first_name u
      /\ (user_id u <> User.id user -> u' = u).
Proof.
  intros user now w i u H. rewrite log_user_data_logged. cbn [fst].
  assert (Hr : users_file w <> Some NotJson).
  { intros E. unfold entries in H. rewrite E in H. now destruct i. }
  rewrite entries_logged_readable by exact Hr.
  exact (refresh_keeps_places (entry_of user now) (entries w) i u H).
Qed.

Lemma refresh_timestamps new users v :
  In v (refresh_or_append new users) ->
  timestamp v = timestamp new \/ In v users.
Proof.
  induction users as [|u users IH]; simpl.
  - intros [<-|[]]. now left.
  - destruct (Z.eqb (user_id u) (user_id new)).
    + intros [<-|H]; [now left|right; now right].
    + intros [<-|H]; [right; now left|].
      destruct (IH H) as [E|I]; [now left|right; now right].
Qed.

Lemma filter_length_le {A} (f : A -> bool) l :
  length (List.filter f l) <= length l.
Proof.
  induction l as [|x l IH]; simpl; [lia|]. destruct (f x); simpl; lia.
Qed.

Lemma filter_length_pos {A} (f : A -> bool) l x :
  In x l -> f x = true -> 1 <= length (List.filter f l).
Proof.
  intros H E. assert (I : In x (List.filter f l)) by now apply filter_In.
  destruct (List.filter f l); [easy|simpl; lia].
Qed.

(** X9: a user who has just been recorded is counted among the users of
    the day: where [strptime] reads back the time that [strftime] wrote and
    every older timestamp of the log, the report that the admin gets right
    after a recording has a same-day count between one and the total. *)
Theorem recorded_user_counts_today :
  forall strptime upd user now w,
    get_admin w = Some (User.id (effective_user upd)) ->
    users_file w <> Some NotJson ->
    (forall u, In u (entries w) -> strptime (timestamp u) <> None) ->
    strptime (strftime now) = Some now ->
    exists total today,
      list_users strptime upd now (fst (log_user_data user now w))
      = (with_trace
           (trace w
            ++ [ReplyText
                  (UsersReport total today
                     (entries (fst (log_user_data user now w))))])
           (fst (log_user_data user now w)),
         Ok tt)
      /\ 1 <= today <= total.
Proof.
  intros strptime upd user now w G Hr Hp Hnow.
  rewrite log_user_data_logged. cbn [fst].
  set (w' := logged user now w).
  set (today := dt_date now).
  assert (G' : get_admin w' = Some (User.id (effective_user upd)))
    by (unfold get_admin, w' in *; now rewrite logged_admin_file).
  assert (E : users_file w' = Some (Entries (entries w'))).
  { unfold w', entries. rewrite (entries_logged_entry_of user now w Hr).
    reflexivity. }
  destruct (refresh_has_id (entry_of user now) (entries w))
    as (u & Hu & _ & Tu).
  assert (Hp' : forall v, In v (entries w') ->
                          strptime (timestamp v) <> None).
  { intros v Hv. unfold w' in Hv.
    rewrite entries_logged_readable in Hv by exact Hr.
    apply refresh_timestamps in Hv. destruct Hv as [T|I]; [|now apply Hp].
    simpl in T. rewrite T, Hnow. discriminate. }
  exists (length (entries w')), (length (List.filter (dated strptime today)
                                           (entries w'))).
  split.
  - unfold list_users, bind, get_world, try_except. rewrite G', E.
    rewrite bool_decide_eq_true_2 by reflexivity. simpl.
    rewrite (count_today_readable strptime (dt_date now) (entries w') Hp').
    unfold emit, today. simpl. unfold w' at 1. now rewrite logged_trace.
  - split; [|apply filter_length_le].
    apply (filter_length_pos _ _ u).
    + unfold w'. now rewrite entries_logged_readable.
    + unfold dated. simpl in Tu. rewrite Tu, Hnow. unfold today.
      now apply date_eqb_eq.
Qed.

(** ** More on the admin registry and on [/start] and [/users] *)

Lemma start_world upd now w :
  start upd now w
  = match get_admin w with
    | None =>
        (with_trace
           (trace w ++ [ReplyText AdminAssigned; ReplyText Welcome])
           (set_admin (User.id (effective_user upd))
              (logged (effective_user upd) now w)),
         Ok tt)
    | Some _ =>
        (with_trace (trace w ++ [ReplyText Welcome])
           (logged (effective_user upd) now w),
         Ok tt)
    end.
Proof.
  unfold start, bind, get_world. rewrite log_user_data_logged.
  assert (G : get_admin (logged (effective_user upd) now w) = get_admin w)
    by (unfold get_admin; now rewrite logged_admin_file).
  rewrite G. destruct (get_admin w); simpl; unfold emit.
  - now rewrite logged_trace.
  - unfold set_admin. rewrite logged_admin_file.
    destruct (admin_file w); simpl; now rewrite logged_trace, <- app_assoc.
Qed.

(** X10: the first [/start], with no admin file yet, writes the caller's
    identifier to the admin file, records the caller in the log, and sends
    the admin notice and then the welcome; from then on [get_admin] gives
    this caller. *)
Theorem start_makes_first_caller_admin :
  forall upd now w,
    admin_file w = None ->
    start upd now w
    = (with_trace
         (trace w ++ [ReplyText AdminAssigned; ReplyText Welcome])
         (with_admin_file
            (Some {| admin_id := Some (User.id (effective_user upd)) |})
            (logged (effective_user upd) now w)),
       Ok tt)
    /\ get_admin (fst (start upd now w))
       = Some (User.id (effective_user upd)).
Proof.
  intros upd now w H.
  assert (G : get_admin w = None) by (unfold get_admin; now rewrite H).
  rewrite start_world, G. unfold set_admin. rewrite logged_admin_file, H.
  split; reflexivity.
Qed.

(** X11: once there is an admin, [/start] changes neither the admin file
    nor the admin, whoever calls, the admin included: it records the caller
    and sends the welcome only. *)
Theorem start_keeps_the_admin :
  forall upd now w a,
    get_admin w = Some a ->
    start upd now w
    = (with_trace (trace w ++ [ReplyText Welcome])
         (logged (effective_user upd) now w),
       Ok tt)
    /\ admin_file (fst (start upd now w)) = admin_file w
    /\ get_admin (fst (start upd now w)) = Some a.
Proof.
  intros upd now w a G. rewrite start_world, G. cbn [fst].
  split; [reflexivity|]. unfold get_admin in *. simpl.
  now rewrite logged_admin_file.
Qed.

(** X12: an admin file without an [admin_id] is never repaired: [/start]
    tells each caller that they have been set as the admin, yet writes
    nothing to the file, since the file exists; [get_admin] stays [None],
    and [/users] stays denied to everyone. *)
Theorem start_with_empty_admin_file :
  forall strptime upd other now later w,
    admin_file w = Some {| admin_id := None |} ->
    trace (fst (start upd now w))
    = trace w ++ [ReplyText AdminAssigned; ReplyText Welcome]
    /\ admin_file (fst (start upd now w)) = Some {| admin_id := None |}
    /\ get_admin (fst (start upd now w)) = None
    /\ trace (fst (list_users strptime other later (fst (start upd now w))))
       = trace (fst (start upd now w)) ++ [ReplyText PermissionDenied].
Proof.
  intros strptime upd other now later w H.
  assert (G : get_admin w = None) by (unfold get_admin; now rewrite H).
  rewrite start_world, G. cbn [fst].
  assert (A : admin_file
                (with_trace
                   (trace w ++ [ReplyText AdminAssigned; ReplyText Welcome])
                   (set_admin (User.id (effective_user upd))
                      (logged (effective_user upd) now w)))
              = Some {| admin_id := None |}).
  { simpl. unfold set_admin. rewrite logged_admin_file, H. simpl.
    now rewrite logged_admin_file. }
  split; [reflexivity|]. split; [exact A|].
  assert (G' : get_admin
                 (with_trace
                    (trace w ++ [ReplyText AdminAssigned; ReplyText Welcome])
                    (set_admin (User.id (effective_user upd))
                       (logged (effective_user upd) now w))) = None)
    by (unfold get_admin; now rewrite A).
  split; [exact G'|].
  unfold list_users, bind, get_world. now rewrite G'.
Qed.

(** X13: [/users] is for the admin alone: any caller whose identifier is
    not what [get_admin] gives gets the permission-denied reply, and
    nothing is read and nothing changes. *)
Theorem list_users_denies_others :
  forall strptime upd now w,
    get_admin w <> Some (User.id (effective_user upd)) ->
    list_users strptime upd now w
    = (with_trace (trace w ++ [ReplyText PermissionDenied]) w, Ok tt).
Proof.
  intros strptime upd now w H. unfold list_users, bind, get_world.
  rewrite bool_decide_eq_false_2 by congruence. reflexivity.
Qed.


(** X15: what the admin gets in place of the report: with no log file the
    reply that there are no users; with a log that [json.load] refuses, or
    with one timestamp that [strptime] refuses, the error reply. *)
Theorem list_users_without_report :
  forall strptime upd now w,
    get_admin w = Some (User.id (effective_user upd)) ->
    (users_file w = None ->
     list_users strptime upd now w
     = (with_trace (trace w ++ [ReplyText NoUsersFound]) w, Ok tt))
    /\ (users_file w = Some NotJson ->
        list_users strptime upd now w
        = (with_trace (trace w ++ [ReplyText UsersError]) w, Ok tt))
    /\ (forall users,
          users_file w = Some (Entries users) ->
          (exists u, In u users /\ strptime (timestamp u) = None) ->
          list_users strptime upd now w
          = (with_trace (trace w ++ [ReplyText UsersError]) w, Ok tt)).
Proof.
  intros strptime upd now w G.
  assert (B : bool_decide (Some (User.id (effective_user upd)) = get_admin w)
              = true) by now rewrite bool_decide_eq_true_2.
  repeat split.
  - intros E. unfold list_users, bind, get_world, try_except.
    now rewrite B, E.
  - intros E. unfold list_users, bind, get_world, try_except.
    now rewrite B, E.
  - intros users E H. now apply list_users_unreadable_timestamp with users.
Qed.

(** ** More on [download] and on the relay *)

Lemma bind_assoc {A B C} (m : M A) (f : A -> M B) (g : B -> M C) w :
  bind (bind m f) g w = bind m (fun a => bind (f a) g) w.
Proof. unfold bind. now destruct (m w) as [w' [a|e]]. Qed.

Lemma bind_ext {A B} (m : M A) (f g : A -> M B) w :
  (forall a w', f a w' = g a w') -> bind m f w = bind m g w.
Proof. intros H. unfold bind. now destruct (m w) as [w' [a|e]]. Qed.

(** The relay is the download into the temp file, the upload and the
    removal of the progress message, under its [except] and [finally]. *)
Lemma relay_steps env media_url chat w :
  relay env media_url chat w
  = try_finally
      (try_except
         (fetch_to_file env media_url (temp_name media_url chat);;
          (if ends_with (chars ".mp4") (chars (temp_name media_url chat))
           then chat_call (ReplyVideo (temp_name media_url chat) caption)
                  (send_media_ok env)
           else chat_call (ReplyPhoto (temp_name media_url chat) caption)
                  (send_media_ok env));;
          chat_call DeleteProgress (delete_progress_ok env))
         (fun _ =>
            chat_call (EditProgress SendFailed) (edit_progress_ok env)))
      (let* there := exists_file (temp_name media_url chat) in
       when there (remove (temp_name media_url chat))) w.
Proof.
  unfold relay, try_finally, try_except, fetch_to_file.
  rewrite !bind_assoc.
  erewrite bind_ext; [reflexivity|]. intros [] w1. simpl.
  rewrite !bind_assoc. apply bind_ext. intros response w2.
  rewrite !bind_assoc. apply bind_ext. intros [] w3.
  rewrite !bind_assoc. apply bind_ext. intros [] w4.
  reflexivity.
Qed.

Lemma write_all_appends env name cs : forall w acc,
  write_ok env = true ->
  temp_files w !! name = Some acc ->
  write_all env name cs w
  = (with_temp_files (<[name := acc ++ concat cs]> (temp_files w)) w, Ok tt).
Proof.
  induction cs as [|chunk cs IH]; intros w acc Hw Hn; simpl.
  - rewrite app_nil_r, insert_id by exact Hn. now destruct w.
  - unfold bind, write. rewrite Hw. unfold modify. rewrite Hn. simpl.
    rewrite (IH _ (acc ++ chunk)); [|exact Hw|simpl; apply lookup_insert_eq].
    simpl. now rewrite insert_insert_eq, app_assoc.
Qed.

Lemma write_all_fails env name chunk cs w :
  write_ok env = false ->
  write_all env name (chunk :: cs) w = (w, Raise OSError).
Proof. intros H. simpl. unfold bind, write. now rewrite H. Qed.

(** X16: the download of the relay writes to the temp file, in order, the
    chunks that the response yields: with a response and a disk that takes
    the writes, the file holds their concatenation when the stream ends,
    also when it ends by a broken connection; whatever the file held before
    is gone. *)
Theorem fetch_to_file_content :
  forall env media_url file_name w response,
    requests_get env media_url = Ok response ->
    open_ok env = true ->
    write_ok env = true ->
    fetch_to_file env media_url file_name w
    = (with_temp_files
         (<[file_name := concat (chunks response)]> (temp_files w))
         (with_trace (trace w ++ [RequestsGet media_url]) w),
       if broken response then Raise ConnectionError else Ok tt).
Proof.
  intros env media_url file_name w response Hget Hopen Hwrite.
  unfold fetch_to_file, bind at 1, emit. unfold bind at 1, lift.
  rewrite Hget. unfold bind at 1, open_wb. rewrite Hopen.
  unfold modify at 1. unfold bind at 1.
  rewrite (write_all_appends env file_name (chunks response) _ []);
    [|exact Hwrite|simpl; apply lookup_insert_eq].
  simpl. rewrite insert_insert_eq. now destruct (broken response).
Qed.

Ltac fetch_case :=
  do 2 eexists; split; [reflexivity|];
  split; [first [assumption|reflexivity]|];
  split; intros; first [discriminate|reflexivity|eauto].

(** Whether the download comes to its end, and the one event it makes. *)
Lemma fetch_to_file_result env media_url file_name w :
  exists w1 r,
    fetch_to_file env media_url file_name w = (w1, r)
    /\ trace w1 = trace w ++ [RequestsGet media_url]
    /\ (download_completes env media_url = true -> r = Ok tt)
    /\ (download_completes env media_url = false -> exists e, r = Raise e).
Proof.
  unfold download_completes, fetch_to_file.
  unfold bind at 1, emit. unfold bind at 1, lift.
  destruct (requests_get env media_url) as [response|e]; simpl;
    [|fetch_case].
  unfold bind at 1, open_wb.
  destruct (open_ok env); simpl; [|fetch_case].
  unfold bind at 1.
  destruct (write_ok env) eqn:Hw; simpl.
  - match goal with |- context [write_all env file_name ?cs ?w0] =>
      destruct (write_all_ok env file_name cs w0 Hw) as (w1 & -> & T1) end.
    simpl in T1. destruct (broken response); simpl; fetch_case.
  - destruct (chunks response) as [|chunk cs]; simpl.
    + destruct (broken response); simpl; fetch_case.
    + unfold bind, write. rewrite Hw. simpl. fetch_case.
Qed.

Lemma bind_run {A B} (m : M A) (k : A -> M B) w w1 r :
  m w = (w1, r) ->
  bind m k w = match r with Ok a => k a w1 | Raise e => (w1, Raise e) end.
Proof. intros E. unfold bind. now rewrite E. Qed.

Ltac relay_cases env :=
  unfold chat_call, bind, emit, exists_file, when, remove, modify, ret, raise;
  destruct (send_media_ok env), (delete_progress_ok env),
    (edit_progress_ok env); simpl;
  repeat match goal with
         | |- context [bool_decide ?P] => destruct (bool_decide P); simpl
         end.

(** X17: when the download of the relay does not come to its end (the
    request raises, the file cannot be opened or written, the connection
    breaks), nothing is uploaded: after the request the only event is the
    report that the media could not be sent. *)
Theorem relay_reports_failed_download :
  forall env media_url chat w,
    download_completes env media_url = false ->
    trace (fst (relay env media_url chat w))
    = trace w ++ [RequestsGet media_url; EditProgress SendFailed].
Proof.
  intros env media_url chat w H. rewrite relay_steps.
  unfold try_finally, try_except.
  destruct (fetch_to_file_result env media_url (temp_name media_url chat) w)
    as (w1 & r & E & T & _ & Hf).
  destruct (Hf H) as (e & ->). rewrite (bind_run _ _ _ _ _ E).
  relay_cases env; rewrite T, <- ?app_assoc; reflexivity.
Qed.


(** X19: when the URL check passes and no media is resolved (no shortcode
    in the text, or the lookup raises, as for a private or deleted post),
    [download] sends the typing action and the progress message, edits the
    progress message to the fetch failure, and stops: no request for media
    is made and the temp files are as before. *)
Theorem download_without_media :
  forall env upd now w,
    is_valid_instagram_url (strip (text upd)) = true ->
    (extract_shortcode (strip (text upd)) = None ->
     download env upd now w
     = (with_trace
          (trace w ++ [SendTyping; ReplyText FetchingMedia;
                       EditProgress FetchFailed])
          (logged (effective_user upd) now w),
        Ok tt))
    /\ (forall shortcode e,
          extract_shortcode (strip (text upd)) = Some shortcode ->
          from_shortcode env shortcode = Raise e ->
          download env upd now w
          = (with_trace
               (trace w ++ [SendTyping; ReplyText FetchingMedia;
                            FromShortcode shortcode;
                            EditProgress FetchFailed])
               (logged (effective_user upd) now w),
             Ok tt)).
Proof.
  intros env upd now w V. split.
  - intros E. unfold download, bind at 1. rewrite log_user_data_logged, V.
    simpl. unfold bind at 1, emit. unfold bind at 1.
    erewrite bind_run; [|apply fetch_without_shortcode; exact E].
    simpl. now rewrite logged_trace, <- !app_assoc.
  - intros shortcode e E L. unfold download, bind at 1.
    rewrite log_user_data_logged, V.
    simpl. unfold bind at 1, emit. unfold bind at 1.
    erewrite bind_run; [|apply fetch_with_shortcode; exact E].
    rewrite L. simpl. now rewrite logged_trace, <- !app_assoc.
Qed.

Lemma emit_run e w : emit e w = (with_trace (trace w ++ [e]) w, Ok tt).
Proof. reflexivity. Qed.

(** X20: of the files, [download] changes the user log alone, and as
    [log_user_data] does: the admin file is as before, the log is the log
    after the recording of the caller, which is made whatever the text is,
    and no temp file is there afterwards that was not there before. *)
Theorem download_changes_the_log_only :
  forall env upd now w,
    admin_file (fst (download env upd now w)) = admin_file w
    /\ users_file (fst (download env upd now w))
       = users_file (fst (log_user_data (effective_user upd) now w))
    /\ temp_files (fst (download env upd now w)) ⊆ temp_files w.
Proof.
  intros env upd now w. rewrite log_user_data_logged. cbn [fst].
  assert (F : admin_file (fst (download env upd now w))
              = admin_file (logged (effective_user upd) now w)
              /\ users_file (fst (download env upd now w))
                 = users_file (logged (effective_user upd) now w)).
  { unfold download.
    rewrite !(bind_run _ _ _ _ _ (log_user_data_logged _ _ _)).
    destruct (is_valid_instagram_url (strip (text upd))); cbn [negb];
      [|rewrite !emit_run; now split].
    repeat (rewrite !(bind_run (emit _) _ _ _ _ (emit_run _ _));
            cbn beta iota).
    match goal with |- context [bind (fetch_instagram_data env ?p) _ ?w0] =>
      destruct (extract_shortcode p) as [shortcode|] eqn:E;
      [rewrite !(bind_run (fetch_instagram_data env p) _ _ _ _
                   (fetch_with_shortcode env p shortcode w0 E))
      |rewrite !(bind_run (fetch_instagram_data env p) _ _ _ _
                   (fetch_without_shortcode env p w0 E))]
    end; [|now split].
    destruct (match from_shortcode env shortcode with
              | Ok post =>
                  if is_video post then video_url post else Some (url post)
              | Raise _ => None
              end) as [[|c media_url]|]; simpl; try now split.
    match goal with |- context [relay env ?u ?c ?w0] =>
      destruct (relay_touches_only env u c w0) as (A & U & _) end.
    now rewrite A, U. }
  destruct F as (A & U). rewrite A, U, logged_admin_file.
  repeat split. apply map_subseteq_spec. intros name bytes.
  apply download_leaves_no_file.
Qed.

Lemma str_of_int_inj a b : str_of_int a = str_of_int b -> a = b.
Proof.
  unfold str_of_int. intros E. apply DecimalZ.to_int_inj.
  assert (S : Some (Z.to_int a) = Some (Z.to_int b))
    by now rewrite <- !NilEmpty.isi, E.
  now injection S.
Qed.

Lemma chars_inj a b : chars a = chars b -> a = b.
Proof.
  unfold chars. intros E.
  now rewrite <- (string_of_list_ascii_of_string a), E,
    string_of_list_ascii_of_string.
Qed.

Lemma temp_name_chat media_url media_url' a b :
  temp_name media_url a = temp_name media_url' b -> a = b.
Proof.
  unfold temp_name. intros E. apply str_of_int_inj, chars_inj.
  destruct (contains (chars "video") (chars media_url)),
    (contains (chars "video") (chars media_url'));
    injection E as E; apply (f_equal chars) in E; rewrite !chars_app in E;
    change (chars "") with (@nil ascii) in E; rewrite !app_nil_l in E.
  - now apply app_inv_tail in E.
  - apply (f_equal (@rev ascii)) in E. rewrite !rev_app_distr in E.
    discriminate.
  - apply (f_equal (@rev ascii)) in E. rewrite !rev_app_distr in E.
    discriminate.
  - now apply app_inv_tail in E.
Qed.

(** X21: the temp file of a relay belongs to its chat: a relay in one chat
    neither writes nor removes the temp file, video or photo, of any other
    chat. *)
Theorem relay_spares_other_chats :
  forall env media_url media_url' chat other w,
    other <> chat ->
    temp_files (fst (relay env media_url chat w))
      !! temp_name media_url' other
    = temp_files w !! temp_name media_url' other.
Proof.
  intros env media_url media_url' chat other w N.
  apply (relay_touches_only env media_url chat w).
  intros E. apply N. now apply (temp_name_chat media_url' media_url).
Qed.

(** ** The session store *)

(** X22: a session that [load_or_create_session] has once set up stays:
    when a call succeeds, every later call succeeds too, whatever the login
    would do by then, and leaves both the session file and the session of
    the loader as the first call made them; no second login is made. *)
Theorem session_persists :
  forall login login' st,
    snd (load_or_create_session login st) = None ->
    load_or_create_session login' (fst (load_or_create_session login st))
    = (fst (load_or_create_session login st), None)
    /\ exists session,
         session_file (fst (load_or_create_session login st))
         = Some (Pickled session)
         /\ loader_session (fst (load_or_create_session login st))
            = Some session.
Proof.
  intros login login' st. unfold load_or_create_session.
  destruct (session_file st) as [[session|]|] eqn:E; simpl; [|easy|].
  - intros _. split; [reflexivity|eauto].
  - destruct login as [session|]; simpl; [|easy]. intros _. eauto.
Qed.


(** * The further properties on the sample run *)


Lemma extract_shortcode_segment_witness :
  is_valid_instagram_url "http://instagram\.com/p/ABC?igshid=1" = true
  /\ extract_shortcode "http://instagram\.com/p/ABC?igshid=1" = Some "ABC".
Proof.
  apply (extract_shortcode_segment
           "http://instagram\.com/p/ABC?igshid=1"
           false false "."%char "."%char (chars "p") (chars "ABC")
           (chars "?igshid=1")).
  - reflexivity.
  - discriminate.
  - discriminate.
  - left. reflexivity.
  - discriminate.
  - repeat constructor.
  - reflexivity.
Defined.

Lemma extract_shortcode_clean_witness :
  "Q1" <> "" /\ Forall (fun x => is_stop x = false) (chars "Q1").
Proof.
  apply (extract_shortcode_clean "see instagram\.com/tv/Q1#top" "Q1").
  vm_compute. reflexivity.
Defined.

Lemma download_rejects_without_backslash_witness :
  download online (from_alice "https://www.instagram.com/reel/Cx1234/")
    noon fresh
  = (with_trace [ReplyText InvalidUrl] (logged alice noon fresh), Ok tt).
Proof.
  apply (download_rejects_without_backslash
           online (from_alice "https://www.instagram.com/reel/Cx1234/")
           noon fresh).
  vm_compute. intuition discriminate.
Defined.

Lemma log_user_data_first_contact_witness :
  log_user_data alice noon fresh
  = (with_users_file
       (Some (Entries
          [{| user_id := 7%Z; username := Some "alice";
              first_name := "Alice"; timestamp := strftime noon |}])) fresh,
     Ok tt).
Proof.
  apply (log_user_data_first_contact alice noon fresh).
  - discriminate.
  - intros u [].
Defined.

Lemma log_user_data_best_effort_witness :
  exists w',
    log_user_data bob noon running = (w', Ok tt)
    /\ admin_file w' = admin_file running
    /\ temp_files w' = temp_files running
    /\ trace w' = trace running
    /\ (users_file running = Some NotJson -> w' = running).
Proof. exact (log_user_data_best_effort bob noon running). Defined.

Lemma log_user_data_keeps_ids_unique_witness :
  NoDup (List.map user_id
           (entries (fst (log_user_data alice noon running)))).
Proof.
  apply (log_user_data_keeps_ids_unique alice noon running).
  apply (bool_decide_unpack _). vm_compute. reflexivity.
Defined.

Lemma log_user_data_keeps_records_witness :
  exists u',
    nth_error (entries (fst (log_user_data alice noon running))) 1 = Some u'
    /\ user_id u' = 7%Z /\ username u' = Some "al" /\ first_name u' = "Al"
    /\ (7%Z <> 7%Z -> u' = alice_entry).
Proof.
  apply (log_user_data_keeps_records alice noon running 1 alice_entry).
  reflexivity.
Defined.

Lemma recorded_user_counts_today_witness :
  exists total today,
    list_users strptime (from_alice "/users") noon
      (fst (log_user_data bob noon running))
    = (with_trace
         [ReplyText
            (UsersReport total today
               (entries (fst (log_user_data bob noon running))))]
         (fst (log_user_data bob noon running)),
       Ok tt)
    /\ 1 <= today <= total.
Proof.
  apply (recorded_user_counts_today
           strptime (from_alice "/users") bob noon running).
  - reflexivity.
  - discriminate.
  - intros u [<-|[<-|[]]]; vm_compute; discriminate.
  - vm_compute. reflexivity.
Defined.

Lemma start_makes_first_caller_admin_witness :
  get_admin (fst (start (from_alice "/start") noon fresh)) = Some 7%Z.
Proof.
  apply (proj2 (start_makes_first_caller_admin
                  (from_alice "/start") noon fresh eq_refl)).
Defined.

Lemma start_keeps_the_admin_witness :
  start (from_bob "/start") noon running
  = (with_trace [ReplyText Welcome] (logged bob noon running), Ok tt)
  /\ admin_file (fst (start (from_bob "/start") noon running))
     = admin_file running
  /\ get_admin (fst (start (from_bob "/start") noon running)) = Some 7%Z.
Proof.
  apply (start_keeps_the_admin (from_bob "/start") noon running 7%Z).
  reflexivity.
Defined.

Lemma start_with_empty_admin_file_witness :
  trace (fst (start (from_alice "/start") noon orphaned))
  = [ReplyText AdminAssigned; ReplyText Welcome]
  /\ get_admin (fst (start (from_alice "/start") noon orphaned)) = None.
Proof.
  destruct (start_with_empty_admin_file
              strptime (from_alice "/start") (from_alice "/users")
              noon noon orphaned eq_refl) as (T & _ & G & _).
  split; [exact T|exact G].
Defined.

Lemma list_users_denies_others_witness :
  list_users strptime (from_bob "/users") noon running
  = (with_trace [ReplyText PermissionDenied] running, Ok tt).
Proof.
  apply (list_users_denies_others strptime (from_bob "/users") noon running).
  vm_compute. discriminate.
Defined.

Lemma list_users_without_report_witness :
  list_users strptime (from_alice "/users") noon unrecorded
  = (with_trace [ReplyText NoUsersFound] unrecorded, Ok tt).
Proof.
  apply (proj1 (list_users_without_report
                  strptime (from_alice "/users") noon unrecorded eq_refl)).
  reflexivity.
Defined.

Lemma fetch_to_file_content_witness :
  fetch_to_file online "https://cdn/1.jpg" "temp_5.jpg" running
  = (with_temp_files
       (<["temp_5.jpg" := chars "abc"]> (temp_files running))
       (with_trace [RequestsGet "https://cdn/1.jpg"] running),
     Ok tt).
Proof.
  apply (fetch_to_file_content
           online "https://cdn/1.jpg" "temp_5.jpg" running
           {| chunks := [chars "ab"; chars "c"]; broken := false |});
    reflexivity.
Defined.

Lemma relay_reports_failed_download_witness :
  trace (fst (relay offline "https://cdn/video/1" 42%Z fresh))
  = [RequestsGet "https://cdn/video/1"; EditProgress SendFailed].
Proof.
  apply (relay_reports_failed_download
           offline "https://cdn/video/1" 42%Z fresh).
  reflexivity.
Defined.

Lemma download_without_media_witness :
  download offline (from_alice " https://instagram\.com/p/A ") noon fresh
  = (with_trace
       [SendTyping; ReplyText FetchingMedia; FromShortcode "A";
        EditProgress FetchFailed]
       (logged alice noon fresh),
     Ok tt).
Proof.
  refine (proj2 (download_without_media
                   offline (from_alice " https://instagram\.com/p/A ")
                   noon fresh _) "A" LookupFailed _ _).
  - vm_compute. reflexivity.
  - vm_compute. reflexivity.
  - reflexivity.
Defined.

Lemma relay_spares_other_chats_witness :
  temp_files (fst (relay online "https://cdn/video/1" 6%Z running))
    !! temp_name "https://cdn/1.jpg" 5%Z
  = temp_files running !! temp_name "https://cdn/1.jpg" 5%Z.
Proof.
  apply (relay_spares_other_chats
           online "https://cdn/video/1" "https://cdn/1.jpg" 6%Z 5%Z running).
  discriminate.
Defined.

Lemma session_persists_witness :
  load_or_create_session None
    (fst (load_or_create_session (Some "cookie") no_session))
  = (fst (load_or_create_session (Some "cookie") no_session), None).
Proof.
  apply (proj1 (session_persists (Some "cookie") None no_session eq_refl)).
Defined.

